(** * Karmarkar-Karp multiway number partitioning (LDMGPU/ldm.cpp)

    A shallow embedding of [Subset], [Partition] and [KarmarkarKarp] and of the
    four standard-library algorithms the driver calls ([std::sort],
    [std::make_heap], [std::pop_heap], [std::push_heap]), followed by the
    properties of the driver.

    Conventions.
    - [Number] is [std::uint64_t]: a [Z] whose arithmetic is reduced modulo
      2^64 by [wrap] wherever the source adds or subtracts.
    - [std::list<Number>] and [std::vector<_>] are [list]s; [splice] at the end
      is [++].
    - [assert] aborts the program: [AssertionFailed] names the assertion.
      [front()]/[back()] of an empty vector is undefined behaviour:
      [Undefined].
    - The standard algorithms are an interface ([StdAlgorithms]); [Conforming]
      states the postconditions the C++ standard gives them, and the
      properties of the driver are proved for every conforming library.
      [libstdcxx] follows the GNU implementation (bits/stl_heap.h, and the
      insertion sort that bits/stl_algo.h runs on ranges of at most 16
      elements); the runs on concrete inputs use it.
    - A [std::ostream] is the list of the values inserted into it so far
      ([ostream]); [render] gives the characters they print as. *)

From Stdlib Require Import ZArith Lia ZifyNat Ascii.
From stdpp Require Import base tactics option list sorting strings pretty.

Local Open Scope Z_scope.

(* [lia] reads [/] by a constant as its quotient and remainder. *)
Ltac Zify.zify_post_hook ::= Z.div_mod_to_equations.

(** ** Numbers *)

(** [using Number = std::uint64_t] *)
Abbreviation Number := Z (only parsing).

Definition wrap (z : Z) : Number := z mod 2 ^ 64.

Definition is_Number (n : Z) : Prop := 0 <= n < 2 ^ 64.

(** ** Outcomes of a call *)

Inductive Assertion :=
  | assert_numbers_not_empty      (* KarmarkarKarp: assert(!numbers.empty()) *)
  | assert_k_positive             (* KarmarkarKarp: assert(k > 0) *)
  | assert_Partition_k_positive   (* Partition::Partition: assert(k > 0) *)
  | assert_Merge_same_size.       (* Partition::Merge: assert(size == other size) *)

Inductive outcome (A : Type) :=
  | Returned (a : A)
  | AssertionFailed (which : Assertion)
  | Undefined
  | OutOfFuel.
Arguments Returned {A} a.
Arguments AssertionFailed {A} which.
Arguments Undefined {A}.
Arguments OutOfFuel {A}.

#[global] Instance outcome_bind : MBind outcome := fun A B f m =>
  match m with
  | Returned a => f a
  | AssertionFailed which => AssertionFailed which
  | Undefined => Undefined
  | OutOfFuel => OutOfFuel
  end.

(** ** Subset *)

Record Subset := mkSubset { numbers_ : list Number; sum_ : Number }.

(** [Subset()] *)
Definition Subset_empty : Subset := mkSubset [] 0.

(** [explicit Subset(const Number number)] *)
Definition Subset_of (number : Number) : Subset := mkSubset [number] number.

(** [void Subset::Merge(Subset other)] *)
Definition Subset_Merge (self other : Subset) : Subset :=
  mkSubset (numbers_ self ++ numbers_ other) (wrap (sum_ self + sum_ other)).

(** [SubsetSumGreater::operator()] *)
Definition SubsetSumGreater (a b : Subset) : bool := sum_ b <? sum_ a.

(** ** Partition *)

Record Partition := mkPartition { subsets_ : list Subset }.

(** [subsets_.front()] and [subsets_.back()], read on a non-empty vector. *)
Definition front {A} (v : list A) : outcome A :=
  match v with
  | x :: _ => Returned x
  | [] => Undefined
  end.

Definition back {A} (v : list A) : outcome A :=
  match last v with
  | Some x => Returned x
  | None => Undefined
  end.

(** [Partition(const Number number, const std::size_t k)] *)
Definition Partition_new (number : Number) (k : nat) : outcome Partition :=
  let subsets := replicate k Subset_empty in
  if (k =? 0)%nat then AssertionFailed assert_Partition_k_positive
  else match subsets with
       | first :: rest =>
           Returned (mkPartition (Subset_Merge first (Subset_of number) :: rest))
       | [] => Undefined
       end.

(** [Number Partition::difference() const]. The comparator [DifferenceLess]
    needs a total function: on the empty vector, which no constructor call
    that returns can build, both sums read as 0. *)
Definition difference (p : Partition) : Number :=
  wrap (sum_ (default Subset_empty (head (subsets_ p)))
        - sum_ (default Subset_empty (last (subsets_ p)))).

(** The [while] loop of [Partition::Merge]: [it] walks [subsets_] forwards,
    [other_it] walks [other.subsets_] backwards, until either runs out. *)
Fixpoint Merge_loop (it other_it : list Subset) : list Subset :=
  match it, other_it with
  | s :: it', o :: other_it' => Subset_Merge s o :: Merge_loop it' other_it'
  | _, _ => it
  end.

(** [DifferenceLess::operator()] *)
Definition DifferenceLess (a b : Partition) : bool := difference a <? difference b.

(** ** The standard algorithms the driver calls *)

(** [std::sort], [std::make_heap], [std::pop_heap] and [std::push_heap], each
    over a whole vector and with the comparator as its last argument in the
    source. *)
Class StdAlgorithms := {
  sort : forall {A}, (A -> A -> bool) -> list A -> list A;
  make_heap : forall {A}, (A -> A -> bool) -> list A -> list A;
  pop_heap : forall {A}, (A -> A -> bool) -> list A -> list A;
  push_heap : forall {A}, (A -> A -> bool) -> list A -> list A
}.

(** ** Partition::Merge and the driver *)

Section Driver.
Context {std : StdAlgorithms}.

(** [void Partition::Merge(Partition other)] *)
Definition Partition_Merge (self other : Partition) : outcome Partition :=
  if (length (subsets_ self) =? length (subsets_ other))%nat
  then
    let subsets := Merge_loop (subsets_ self) (rev (subsets_ other)) in
    Returned (mkPartition (sort SubsetSumGreater subsets))
  else AssertionFailed assert_Merge_same_size.

(** The [for] loop of [KarmarkarKarp]: [heap.emplace_back(number, k)]. *)
Fixpoint emplace_all (numbers : list Number) (k : nat) (heap : list Partition)
  : outcome (list Partition) :=
  match numbers with
  | [] => Returned heap
  | number :: numbers' =>
      p ← Partition_new number k;
      emplace_all numbers' k (heap ++ [p])
  end.

(** [std::move(heap.back())] followed by [heap.pop_back()]. *)
Definition take_back {A} (v : list A) : outcome (list A * A) :=
  x ← back v; Returned (removelast v, x).

(** One pass through the body of the [while] loop. *)
Definition loop_body (heap : list Partition) : outcome (list Partition) :=
  let heap := pop_heap DifferenceLess heap in
  '(heap, partition) ← take_back heap;
  let heap := pop_heap DifferenceLess heap in
  '(rest, target) ← take_back heap;
  merged ← Partition_Merge target partition;
  let heap := rest ++ [merged] in
  Returned (push_heap DifferenceLess heap).

(** [while (heap.size() > 1)], with the number of passes it made. *)
Fixpoint while_loop (fuel : nat) (steps : nat) (heap : list Partition)
  : outcome (nat * list Partition) :=
  if (1 <? length heap)%nat then
    match fuel with
    | O => OutOfFuel
    | S fuel' =>
        heap' ← loop_body heap;
        while_loop fuel' (S steps) heap'
    end
  else Returned (steps, heap).

(** [KarmarkarKarp], instrumented: the result and the number of passes. *)
Definition KarmarkarKarp_run (numbers : list Number) (k : nat)
  : outcome (nat * Partition) :=
  if decide (numbers = []) then AssertionFailed assert_numbers_not_empty
  else if (k =? 0)%nat then AssertionFailed assert_k_positive
  else
    heap ← emplace_all numbers k [];
    let heap := make_heap DifferenceLess heap in
    '(steps, heap) ← while_loop (length numbers) 0 heap;
    p ← front heap;
    Returned (steps, p).

(** [Partition KarmarkarKarp(const std::vector<Number>& numbers, const std::size_t k)] *)
Definition KarmarkarKarp (numbers : list Number) (k : nat) : outcome Partition :=
  '(_, p) ← KarmarkarKarp_run numbers k; Returned p.

(** The values [heap] takes at the test of the [while] loop in a run of
    [KarmarkarKarp numbers k] that passed the two assertions. *)
Inductive loop_state (numbers : list Number) (k : nat) : list Partition -> Prop :=
  | at_entry heap0 :
      emplace_all numbers k [] = Returned heap0 ->
      loop_state numbers k (make_heap DifferenceLess heap0)
  | after_pass heap heap' :
      loop_state numbers k heap ->
      (1 < length heap)%nat ->
      loop_body heap = Returned heap' ->
      loop_state numbers k heap'.

End Driver.

(** ** The GNU implementation of the algorithms

    Loops whose counter is not a structural argument run on a fuel that the
    callers set to a bound of the number of passes; the laws proved of them
    below hold only because the loops end by their own exit test. *)

Section Implementation.
Context {A : Type} (comp : A -> A -> bool).

(** [std::__push_heap]: the hole climbs while its parent is less than [value]. *)
Fixpoint push_heap_loop (fuel holeIndex topIndex : nat) (value : A) (v : list A)
  : list A :=
  let parent := ((holeIndex - 1) / 2)%nat in
  match fuel, v !! parent with
  | S fuel', Some p =>
      if (topIndex <? holeIndex)%nat && comp p value
      then push_heap_loop fuel' parent topIndex value (<[holeIndex := p]> v)
      else <[holeIndex := value]> v
  | _, _ => <[holeIndex := value]> v
  end.

Definition gnu_push_heap_aux (holeIndex topIndex : nat) (value : A) (v : list A)
  : list A :=
  push_heap_loop holeIndex holeIndex topIndex value v.

(** The [while] loop of [std::__adjust_heap]: the hole descends to the larger
    child while it has two children. *)
Fixpoint adjust_heap_loop (fuel len holeIndex secondChild : nat) (v : list A)
  : nat * nat * list A :=
  match fuel with
  | S fuel' =>
      if (secondChild <? (len - 1) / 2)%nat then
        let secondChild := (2 * (secondChild + 1))%nat in
        match v !! secondChild, v !! (secondChild - 1)%nat with
        | Some r, Some l =>
            let '(secondChild, c) :=
              if comp r l then ((secondChild - 1)%nat, l) else (secondChild, r) in
            adjust_heap_loop fuel' len secondChild secondChild (<[holeIndex := c]> v)
        | _, _ => (holeIndex, secondChild, v)
        end
      else (holeIndex, secondChild, v)
  | O => (holeIndex, secondChild, v)
  end.

(** [std::__adjust_heap] *)
Definition gnu_adjust_heap (holeIndex len : nat) (value : A) (v : list A) : list A :=
  let topIndex := holeIndex in
  let '(holeIndex, secondChild, v) := adjust_heap_loop len len holeIndex holeIndex v in
  let '(holeIndex, v) :=
    if Nat.even len && (secondChild =? (len - 2) / 2)%nat then
      let secondChild := (2 * (secondChild + 1))%nat in
      match v !! (secondChild - 1)%nat with
      | Some c => ((secondChild - 1)%nat, <[holeIndex := c]> v)
      | None => (holeIndex, v)
      end
    else (holeIndex, v) in
  gnu_push_heap_aux holeIndex topIndex value v.

(** [std::pop_heap] *)
Definition gnu_pop_heap (v : list A) : list A :=
  let n := length v in
  if (1 <? n)%nat then
    match v !! (n - 1)%nat, v !! 0%nat with
    | Some value, Some first =>
        gnu_adjust_heap 0 (n - 1) value (<[(n - 1)%nat := first]> v)
    | _, _ => v
    end
  else v.

(** [std::push_heap] *)
Definition gnu_push_heap (v : list A) : list A :=
  let n := length v in
  match v !! (n - 1)%nat with
  | Some value => gnu_push_heap_aux (n - 1) 0 value v
  | None => v
  end.

(** The loop of [std::__make_heap], from [parent] down to 0. *)
Fixpoint make_heap_loop (len parent : nat) (v : list A) : list A :=
  match v !! parent with
  | Some value =>
      let v := gnu_adjust_heap parent len value v in
      match parent with
      | O => v
      | S parent' => make_heap_loop len parent' v
      end
  | None => v
  end.

(** [std::make_heap] *)
Definition gnu_make_heap (v : list A) : list A :=
  let len := length v in
  if (len <? 2)%nat then v else make_heap_loop len ((len - 2) / 2) v.

(** [std::__unguarded_linear_insert], on the sorted prefix read from its last
    element backwards: [val] passes every element it is less than. *)
Fixpoint unguarded_linear_insert (val : A) (rev_prefix : list A) : list A :=
  match rev_prefix with
  | next :: rest =>
      if comp val next then next :: unguarded_linear_insert val rest
      else val :: rev_prefix
  | [] => [val]
  end.

(** One pass of the [for] loop of [std::__insertion_sort]. *)
Definition insertion_step (rev_prefix : list A) (val : A) : list A :=
  match last rev_prefix with
  | Some first =>
      if comp val first then rev_prefix ++ [val]
      else unguarded_linear_insert val rev_prefix
  | None => [val]
  end.

(** [std::sort] on a range of at most 16 elements: [std::__insertion_sort]. *)
Definition gnu_sort (v : list A) : list A :=
  rev (fold_left insertion_step v []).

End Implementation.

(** The GNU implementation as a library. *)
Definition libstdcxx : StdAlgorithms := {|
  sort := @gnu_sort;
  make_heap := @gnu_make_heap;
  pop_heap := @gnu_pop_heap;
  push_heap := @gnu_push_heap
|}.

(** ** The contracts of the standard algorithms *)

(** A comparator the standard accepts induces a strict weak ordering. *)
Record StrictWeakOrder {A} (comp : A -> A -> bool) : Prop := {
  swo_irrefl : forall a, comp a a = false;
  swo_trans : forall a b c, comp a b = true -> comp b c = true -> comp a c = true;
  swo_incomp : forall a b c, comp a b = false -> comp b c = false -> comp a c = false
}.

(** [std::is_sorted]: no element is [comp]-less than an earlier one. *)
Definition is_sorted {A} (comp : A -> A -> bool) (v : list A) : Prop :=
  StronglySorted (fun a b => comp b a = false) v.

(** [std::is_heap]: no element is [comp]-greater than its parent, the parent
    of position [i > 0] being position [(i - 1) / 2]. *)
Definition is_heap {A} (comp : A -> A -> bool) (v : list A) : Prop :=
  forall (i : nat) x p,
    (0 < i)%nat -> v !! i = Some x -> v !! ((i - 1) / 2)%nat = Some p ->
    comp p x = false.

(** What the C++ standard promises of the four algorithms. *)
Class Conforming (std : StdAlgorithms) : Prop := {
  (* [alg.sort]: the range is sorted with respect to comp *)
  sort_spec : forall A (comp : A -> A -> bool) v,
    StrictWeakOrder comp ->
    sort comp v ≡ₚ v /\ is_sorted comp (sort comp v);
  (* [make.heap]: constructs a heap out of the range *)
  make_heap_spec : forall A (comp : A -> A -> bool) v,
    StrictWeakOrder comp ->
    make_heap comp v ≡ₚ v /\ is_heap comp (make_heap comp v);
  (* [pop.heap]: on a non-empty heap, swaps the first value into the last
     position and makes the rest into a heap *)
  pop_heap_spec : forall A (comp : A -> A -> bool) x v,
    StrictWeakOrder comp -> is_heap comp (x :: v) ->
    exists v', pop_heap comp (x :: v) = v' ++ [x] /\ v' ≡ₚ v /\ is_heap comp v';
  (* [push.heap]: when all but the last value form a heap, places the last
     value into the heap *)
  push_heap_spec : forall A (comp : A -> A -> bool) v x,
    StrictWeakOrder comp -> is_heap comp v ->
    push_heap comp (v ++ [x]) ≡ₚ v ++ [x] /\ is_heap comp (push_heap comp (v ++ [x]))
}.

(** ** Vocabulary of the properties *)

(** All the numbers a partition holds, bucket after bucket. *)
Definition contents (p : Partition) : list Number :=
  concat (map numbers_ (subsets_ p)).

(** The number of buckets of a partition (its [k]). *)
Definition size (p : Partition) : nat := length (subsets_ p).

(** Bucket sums never increase along the vector. *)
Definition descending (v : list Subset) : Prop :=
  forall (i j : nat) a b,
    (i < j)%nat -> v !! i = Some a -> v !! j = Some b -> sum_ b <= sum_ a.

(** What [Partition(number, k)] builds when [k > 0]. *)
Definition singleton (number : Number) (k : nat) : Partition :=
  mkPartition (Subset_Merge Subset_empty (Subset_of number)
               :: replicate (k - 1) Subset_empty).

(** A weight that is not 0. *)
Definition positive_Number (n : Z) : Prop := 0 < n < 2 ^ 64.

(** [ws] one per bucket in the first buckets, the other buckets empty. *)
Definition alone (ws : list Number) (k : nat) : list Subset :=
  map Subset_of ws ++ replicate (k - length ws) Subset_empty.

(** The two failures the driver reports for its arguments. *)
Definition InvalidInput {A} (o : outcome A) : Prop :=
  o = AssertionFailed assert_numbers_not_empty \/
  o = AssertionFailed assert_k_positive.

(** Some split of [numbers] into [k] groups gives every group the same sum. *)
Definition perfectly_balanced (numbers : list Number) (k : nat) : Prop :=
  exists groups : list (list Number),
    length groups = k /\ concat groups ≡ₚ numbers /\
    forall a b, a ∈ groups -> b ∈ groups -> foldr Z.add 0 a = foldr Z.add 0 b.

Section ProofVocabulary.
Context {A : Type} (comp : A -> A -> bool).

(** The heap condition on the first [len] positions, for the positions whose
    parent is [top] or later. *)
Definition heap_from (top len : nat) (v : list A) : Prop :=
  forall (i : nat) x p,
    (0 < i < len)%nat -> (top <= (i - 1) / 2)%nat ->
    v !! i = Some x -> v !! ((i - 1) / 2)%nat = Some p -> comp p x = false.

(** Position [i] is in the subtree of position [top]. *)
Inductive below (top : nat) : nat -> Prop :=
  | below_top : below top top
  | below_child i : (0 < i)%nat -> below top ((i - 1) / 2) -> below top i.

(** The sorted prefix, read backwards. *)
Definition sorted_backwards (rev_prefix : list A) : Prop :=
  StronglySorted (fun a b => comp a b = false) rev_prefix.

End ProofVocabulary.

(** ** Output streams, the two printers and main *)

(** One [stream << x]: a character, a string literal or an unsigned integer. *)
Inductive token :=
  | put_char (c : ascii)
  | put_string (s : string)
  | put_number (n : Z).

Definition ostream := list token.

(** The characters a stream holds: integers print in decimal, the format of
    a stream whose flags nobody changed. *)
Definition render_token (t : token) : string :=
  match t with
  | put_char c => String c EmptyString
  | put_string s => s
  | put_number n => pretty n
  end.

Definition render (stream : ostream) : string :=
  foldr (fun t rest => render_token t +:+ rest) EmptyString stream.

(** The characters written '\n' and '\t' in the source. *)
Definition newline : ascii := "010"%char.
Definition tab : ascii := "009"%char.

(** [std::ostream& operator<<(std::ostream& stream, const Subset& subset)] *)
Definition Subset_print (stream : ostream) (subset : Subset) : ostream :=
  let stream := stream ++ [put_char "["%char] in
  let stream :=
    match numbers_ subset with
    | [] => stream
    | first :: rest =>
        fold_left (fun stream number => stream ++ [put_char ","%char; put_number number])
          rest (stream ++ [put_number first])
    end in
  stream ++ [put_char "]"%char].

(** [std::ostream& operator<<(std::ostream& stream, const Partition& partition)] *)
Definition Partition_print (stream : ostream) (partition : Partition) : ostream :=
  let stream :=
    stream ++ [put_number (Z.of_nat (length (subsets_ partition)));
               put_string " partitions: "] in
  let stream := stream ++ [put_char "["%char] in
  let stream :=
    fold_left (fun stream subset => stream ++ [put_number (sum_ subset); put_string "],["])
      (subsets_ partition) stream in
  stream ++ [put_string "]"].

(** A range-based [for] whose body can abort. *)
Fixpoint for_each {S X} (body : S -> X -> outcome S) (range : list X) (state : S)
  : outcome S :=
  match range with
  | [] => Returned state
  | x :: range' => state' ← body state x; for_each body range' state'
  end.

(** [std::vector<Number> numbers = {1, 2, 4}] of [main]. *)
Definition main_numbers : list Number := [1; 2; 4].

(** [test_case(size)] and the loop [test_case[i] = numbers[i % 3]]: the index
    [i % 3] is below the three elements of [numbers], and [i] below the
    [size] elements of [test_case]. *)
Definition first_case (size : nat) : list Number :=
  fold_left (fun test_case i => <[i := main_numbers !!! (i mod 3)%nat]> test_case)
    (seq 0 size) (replicate size 0).

(** Corner case 1: [size - 2] times 4, then 1 and 2. [size] is a [size_t]:
    below 2 the subtraction wraps around to 2^64 - 2 + [size], more elements
    than a vector can take, so that the source does not get through the loop;
    the definition stands for the source from [size = 2] on. *)
Definition corner_case_1 (size : nat) : list Number :=
  let test_case :=
    fold_left (fun test_case _ => test_case ++ [4])
      (seq 0 (Z.to_nat (wrap (Z.of_nat size - 2)))) [] in
  let test_case := test_case ++ [1] in
  test_case ++ [2].

(** Corner case 2: [size] times 1, then 2 and 4. *)
Definition corner_case_2 (size : nat) : list Number :=
  let test_case := fold_left (fun test_case _ => test_case ++ [1]) (seq 0 size) [] in
  let test_case := test_case ++ [2] in
  test_case ++ [4].

(** The body of [for (size_t size : sizes)] in [main], on [std::cout] and
    [test_cases]. *)
Definition generate (state : ostream * list (list Number)) (size : nat)
  : ostream * list (list Number) :=
  let '(cout, test_cases) := state in
  let cout :=
    cout ++ [put_string "Generating test cases for size ";
             put_number (Z.of_nat size); put_char newline] in
  let test_cases := test_cases ++ [first_case size] in
  let cout := cout ++ [put_string "Generating corner case 1"; put_char newline] in
  let test_cases := test_cases ++ [corner_case_1 size] in
  let cout := cout ++ [put_string "Generating corner case 2"; put_char newline] in
  let test_cases := test_cases ++ [corner_case_2 size] in
  (cout, test_cases).

(** The first half of [main]: [std::cout] and [test_cases] when the test
    cases are built. *)
Definition main_build : ostream * list (list Number) :=
  let sizes := [8; 16; 32; 64; 128; 256]%nat in
  let cout := [put_string ("Building test cases..." +:+ String newline EmptyString)] in
  fold_left generate sizes (cout, []).

Definition main_test_cases : list (list Number) := main_build.2.

Definition gpu_counts : list nat := [1; 2; 3; 4; 5; 6]%nat.

Section Main.
Context {std : StdAlgorithms}.

(** The body of [for (const auto& test_case : test_cases)]. *)
Definition run_test_case (gpu_count : nat) (cout : ostream)
    (test_case : list Number) : outcome ostream :=
  let cout := cout ++ [put_string (String tab "Test case: ")] in
  let cout :=
    fold_left (fun cout number => cout ++ [put_number number; put_char " "%char])
      test_case cout in
  let cout := cout ++ [put_string (String newline (String tab "Result: "))] in
  p ← KarmarkarKarp test_case gpu_count;
  let cout := Partition_print cout p in
  Returned (cout ++ [put_char newline]).

(** The body of [for (const auto& gpu_count : gpu_counts)]. *)
Definition run_gpu_count (test_cases : list (list Number)) (cout : ostream)
    (gpu_count : nat) : outcome ostream :=
  let cout :=
    cout ++ [put_string "GPU count: "; put_number (Z.of_nat gpu_count);
             put_char newline] in
  let cout := cout ++ [put_string ("Test cases:" +:+ String newline EmptyString)] in
  for_each (run_test_case gpu_count) test_cases cout.

(** [int main()]: what it has written to [std::cout] when it returns. *)
Definition main : outcome ostream :=
  let '(cout, test_cases) := main_build in
  let cout :=
    cout ++ [put_string ("Test cases built." +:+ String newline EmptyString)] in
  for_each (run_gpu_count test_cases) gpu_counts cout.

End Main.

(** The sum of a list of numbers, without wrap-around. *)
Definition total (numbers : list Z) : Z := foldr Z.add 0 numbers.

(** The cached sum of a bucket is the sum of its numbers modulo 2^64. *)
Definition cached (s : Subset) : Prop := sum_ s = wrap (total (numbers_ s)).

(** What the test cases of [main] have in common, as a test that runs. *)
Definition usual_test_case (test_case : list Number) : bool :=
  negb (bool_decide (test_case = []))
  && forallb (fun n => (n =? 1) || (n =? 2) || (n =? 4)) test_case
  && (length test_case <=? 258)%nat.

(** * Proofs *)

(** ** Comparators *)

Lemma key_less_StrictWeakOrder {A} (key : A -> Z) :
  StrictWeakOrder (fun a b => key a <? key b).
Proof.
  split; intros *; rewrite ?Z.ltb_lt, ?Z.ltb_ge; lia.
Qed.

Lemma SubsetSumGreater_swo : StrictWeakOrder SubsetSumGreater.
Proof.
  unfold SubsetSumGreater.
  split; intros *; rewrite ?Z.ltb_lt, ?Z.ltb_ge; lia.
Qed.

Lemma DifferenceLess_swo : StrictWeakOrder DifferenceLess.
Proof. apply (key_less_StrictWeakOrder difference). Qed.

(** The first element of a heap is not less than any other. *)
Lemma is_heap_front {A} (comp : A -> A -> bool) x v :
  StrictWeakOrder comp -> is_heap comp (x :: v) ->
  forall y, y ∈ x :: v -> comp x y = false.
Proof.
  intros Hswo Hheap y Hy.
  apply list_elem_of_lookup in Hy as [i Hi].
  revert y Hi. induction (lt_wf i) as [i _ IH]. intros y Hi.
  destruct (decide (i = 0%nat)) as [->|Hne].
  - simpl in Hi. injection Hi as <-. apply (swo_irrefl _ Hswo).
  - assert (Hlt : ((i - 1) / 2 < i)%nat).
    { apply Nat.Div0.div_lt_upper_bound. lia. }
    assert (Hlen : (i < length (x :: v))%nat) by (eapply lookup_lt_Some; eauto).
    destruct (lookup_lt_is_Some_2 (x :: v) ((i - 1) / 2)%nat) as [p Hp]; [lia|].
    apply (swo_incomp _ Hswo _ p).
    + apply (IH _ Hlt _ Hp).
    + apply (Hheap i y p); [lia|done..].
Qed.

Lemma is_heap_nil {A} (comp : A -> A -> bool) : is_heap comp [].
Proof. intros i x p _ Hx. by rewrite lookup_nil in Hx. Qed.

(** ** Subset and Partition *)

Lemma Merge_loop_length it other_it :
  length (Merge_loop it other_it) = length it.
Proof.
  revert other_it. induction it as [|s it IH]; intros [|o other_it]; simpl; auto.
Qed.

Lemma Merge_loop_lookup it other_it (i : nat) s o :
  it !! i = Some s -> other_it !! i = Some o ->
  Merge_loop it other_it !! i = Some (Subset_Merge s o).
Proof.
  revert other_it i.
  induction it as [|s' it IH]; intros [|o' other_it] [|i]; simpl; try done.
  - by intros [= ->] [= ->].
  - apply IH.
Qed.

Lemma Merge_loop_contents it other_it :
  length it = length other_it ->
  concat (map numbers_ (Merge_loop it other_it))
  ≡ₚ concat (map numbers_ it) ++ concat (map numbers_ other_it).
Proof.
  revert other_it.
  induction it as [|s it IH]; intros [|o other_it] Hlen; simpl in *; try done.
  rewrite IH by lia.
  rewrite <- !(assoc_L (++)). f_equiv.
  rewrite !(assoc_L (++)). f_equiv.
  apply Permutation_app_comm.
Qed.

Lemma is_sorted_descending v :
  is_sorted SubsetSumGreater v <-> descending v.
Proof.
  unfold is_sorted, descending, SubsetSumGreater. split.
  - intros Hs i j a b Hij Ha Hb.
    rewrite <- (take_drop j v) in Hs.
    apply Z.ltb_ge, (StronglySorted_app_1_elem_of _ _ _ a b Hs).
    + apply list_elem_of_lookup. exists i.
      rewrite lookup_take_lt by done. done.
    + apply list_elem_of_lookup. exists 0%nat.
      rewrite lookup_drop, Nat.add_0_r. done.
  - intros Hd. induction v as [|a v IH]; constructor.
    + apply IH. intros i j x y Hij Hx Hy.
      apply (Hd (S i) (S j)); [lia|done..].
    + apply Forall_forall. intros b Hb.
      apply list_elem_of_lookup in Hb as [j Hj].
      apply Z.ltb_ge. apply (Hd 0%nat (S j)); [lia|done..].
Qed.

Lemma Partition_new_Returned number k :
  k <> 0%nat -> Partition_new number k = Returned (singleton number k).
Proof.
  intros Hk. unfold Partition_new, singleton.
  destruct k as [|k]; [done|]. simpl. by rewrite Nat.sub_0_r.
Qed.

Lemma size_singleton number k : k <> 0%nat -> size (singleton number k) = k.
Proof.
  intros Hk. unfold size, singleton. simpl. rewrite length_replicate. lia.
Qed.

Lemma contents_singleton number k : contents (singleton number k) = [number].
Proof.
  unfold contents, singleton. simpl.
  induction (k - 1)%nat as [|n IH]; [done|]. simpl. done.
Qed.

Lemma wrap_nonneg z : 0 <= wrap z.
Proof. unfold wrap. apply Z.mod_pos_bound. lia. Qed.

Lemma wrap_id z : is_Number z -> wrap z = z.
Proof. unfold wrap, is_Number. intros. apply Z.mod_small. lia. Qed.

Lemma descending_singleton number k : descending (subsets_ (singleton number k)).
Proof.
  intros i j a b Hij Ha Hb. unfold singleton in *. simpl in *.
  destruct j as [|j]; [lia|]. simpl in Hb.
  apply lookup_replicate in Hb as [-> _]. simpl.
  destruct i as [|i]; simpl in Ha.
  - injection Ha as <-. simpl. apply wrap_nonneg.
  - apply lookup_replicate in Ha as [-> _]. done.
Qed.

(** ** The driver, over any conforming library *)

Section Properties.
Context {std : StdAlgorithms} {conforming : Conforming std}.

Lemma Partition_Merge_Returned self other :
  size self = size other ->
  Partition_Merge self other
  = Returned (mkPartition (sort SubsetSumGreater
                (Merge_loop (subsets_ self) (rev (subsets_ other))))).
Proof.
  unfold size, Partition_Merge. intros ->. by rewrite Nat.eqb_refl.
Qed.

Lemma Partition_Merge_inv self other merged :
  Partition_Merge self other = Returned merged ->
  size self = size other /\
  subsets_ merged ≡ₚ Merge_loop (subsets_ self) (rev (subsets_ other)) /\
  descending (subsets_ merged).
Proof.
  unfold Partition_Merge, size.
  destruct (Nat.eqb_spec (length (subsets_ self)) (length (subsets_ other)))
    as [Heq|]; [|done].
  intros [= <-]. simpl.
  destruct (sort_spec _ SubsetSumGreater
    (Merge_loop (subsets_ self) (rev (subsets_ other))) SubsetSumGreater_swo)
    as [Hperm Hsorted].
  split; [done|]. split; [done|]. by apply is_sorted_descending.
Qed.

Lemma size_Partition_Merge self other merged :
  Partition_Merge self other = Returned merged -> size merged = size self.
Proof.
  intros (_ & Hperm & _)%Partition_Merge_inv.
  unfold size. by rewrite Hperm, Merge_loop_length.
Qed.

Lemma contents_Partition_Merge self other merged :
  Partition_Merge self other = Returned merged ->
  contents merged ≡ₚ contents self ++ contents other.
Proof.
  intros (Hsize & Hperm & _)%Partition_Merge_inv.
  unfold contents, size in *. rewrite Hperm.
  rewrite Merge_loop_contents by (by rewrite length_rev).
  f_equiv. by rewrite <- Permutation_rev.
Qed.

Lemma emplace_all_Returned numbers k heap :
  k <> 0%nat ->
  emplace_all numbers k heap
  = Returned (heap ++ map (fun number => singleton number k) numbers).
Proof.
  intros Hk. revert heap.
  induction numbers as [|number numbers IH]; intros heap; simpl.
  - by rewrite app_nil_r.
  - rewrite Partition_new_Returned by done. simpl.
    rewrite IH. by rewrite <- (assoc_L (++)).
Qed.

Lemma take_back_snoc {A} (v : list A) x : take_back (v ++ [x]) = Returned (v, x).
Proof.
  unfold take_back, back. rewrite last_snoc. simpl.
  by rewrite removelast_last.
Qed.

(** What one pass of the loop does to a heap of at least two partitions with
    the same number of buckets: [A] is taken first, [B] second, [B] absorbs
    [A] and goes back into the heap. *)
Lemma loop_body_spec heap k :
  is_heap DifferenceLess heap -> (1 < length heap)%nat ->
  Forall (fun p => size p = k) heap ->
  exists A B heap1 rest merged heap',
    take_back (pop_heap DifferenceLess heap) = Returned (heap1, A) /\
    take_back (pop_heap DifferenceLess heap1) = Returned (rest, B) /\
    heap ≡ₚ A :: B :: rest /\
    (forall p, p ∈ heap -> difference p <= difference A) /\
    (forall p, p ∈ B :: rest -> difference p <= difference B) /\
    Partition_Merge B A = Returned merged /\
    loop_body heap = Returned heap' /\
    heap' ≡ₚ merged :: rest /\
    is_heap DifferenceLess heap'.
Proof.
  intros Hheap Hlen Hsize.
  destruct heap as [|A v]; [simpl in Hlen; lia|].
  destruct (pop_heap_spec _ _ A v DifferenceLess_swo Hheap)
    as (v' & Hpop1 & Hperm1 & Hheap1).
  destruct v' as [|B w].
  { apply Permutation_length in Hperm1. simpl in *. lia. }
  destruct (pop_heap_spec _ _ B w DifferenceLess_swo Hheap1)
    as (w' & Hpop2 & Hperm2 & Hheap2).
  assert (HA : size A = k) by (by inv Hsize).
  assert (HB : size B = k).
  { apply Forall_cons in Hsize as [_ Hsize].
    rewrite <- Hperm1 in Hsize. by inv Hsize. }
  pose proof (Partition_Merge_Returned B A) as Hmerge.
  rewrite HA, HB in Hmerge. specialize (Hmerge eq_refl).
  set (merged := mkPartition _) in Hmerge.
  destruct (push_heap_spec _ _ w' merged DifferenceLess_swo Hheap2)
    as [Hperm3 Hheap3].
  exists A, B, (B :: w), w', merged, (push_heap DifferenceLess (w' ++ [merged])).
  split_and!.
  - by rewrite Hpop1, take_back_snoc.
  - by rewrite Hpop2, take_back_snoc.
  - by rewrite <- Hperm1, Hperm2.
  - intros p Hp. apply Z.ltb_ge.
    apply (is_heap_front DifferenceLess A v DifferenceLess_swo Hheap p Hp).
  - intros p Hp. apply Z.ltb_ge.
    apply (is_heap_front DifferenceLess B w DifferenceLess_swo Hheap1 p).
    by rewrite <- Hperm2.
  - done.
  - unfold loop_body. rewrite Hpop1, take_back_snoc. simpl.
    rewrite Hpop2, take_back_snoc. simpl. rewrite Hmerge. done.
  - rewrite Hperm3. by rewrite Permutation_app_comm.
  - done.
Qed.

(** The loop keeps every property of the collection of candidates that does
    not depend on their order and that replacing two candidates by their
    merge keeps. *)
Lemma while_loop_spec k (I : list Partition -> Prop) :
  (forall h h', h ≡ₚ h' -> I h -> I h') ->
  (forall A B rest merged,
     I (A :: B :: rest) -> Partition_Merge B A = Returned merged ->
     I (merged :: rest)) ->
  forall fuel steps heap,
    is_heap DifferenceLess heap -> Forall (fun p => size p = k) heap ->
    heap <> [] -> (length heap <= S fuel)%nat -> I heap ->
    exists p,
      while_loop fuel steps heap = Returned ((steps + length heap - 1)%nat, [p])
      /\ size p = k /\ I [p].
Proof.
  intros Hperm Hstep fuel.
  induction fuel as [|fuel IH]; intros steps heap Hheap Hsize Hne Hlen HI.
  - destruct heap as [|p [|q heap]]; [done| |simpl in Hlen; lia].
    exists p. simpl. split_and!; [f_equal; f_equal; lia|by inv Hsize|done].
  - destruct (decide (1 < length heap)%nat) as [Hgt|Hle].
    + destruct (loop_body_spec heap k Hheap Hgt Hsize)
        as (A & B & heap1 & rest & merged & heap' & _ & _ & HAB & _ & _ & Hm
            & Hbody & Hh' & Hheap').
      assert (Hlen' : length heap' = (length heap - 1)%nat).
      { rewrite Hh', HAB. simpl. lia. }
      destruct (IH (S steps) heap') as (p & Hrun & Hp & HIp).
      * done.
      * rewrite Hh'. rewrite HAB in Hsize.
        apply Forall_cons in Hsize as [HA [HB Hrest]%Forall_cons].
        constructor; [|done].
        by rewrite (size_Partition_Merge _ _ _ Hm).
      * intros ->. simpl in Hlen'. lia.
      * lia.
      * apply (Hperm (merged :: rest)); [done|].
        apply (Hstep A B); [|done]. by apply (Hperm heap).
      * exists p. split_and!; [|done..].
        simpl. destruct (Nat.ltb_spec 1 (length heap)); [|lia].
        rewrite Hbody. simpl. rewrite Hrun. f_equal. f_equal. lia.
    + destruct heap as [|p [|q heap]]; [done| |simpl in Hle; lia].
      exists p. simpl. split_and!; [f_equal; f_equal; lia|by inv Hsize|done].
Qed.

(** [KarmarkarKarp] on valid arguments: it returns after one pass fewer than
    there are numbers, with [k] buckets and with every property [I] of the
    collection of candidates that the loop keeps. *)
Lemma KarmarkarKarp_run_spec k (I : list Partition -> Prop) numbers :
  (forall h h', h ≡ₚ h' -> I h -> I h') ->
  (forall A B rest merged,
     I (A :: B :: rest) -> Partition_Merge B A = Returned merged ->
     I (merged :: rest)) ->
  numbers <> [] -> k <> 0%nat ->
  I (map (fun number => singleton number k) numbers) ->
  exists p,
    KarmarkarKarp_run numbers k = Returned ((length numbers - 1)%nat, p)
    /\ size p = k /\ I [p].
Proof.
  intros Hperm Hstep Hne Hk HI.
  unfold KarmarkarKarp_run.
  destruct (decide (numbers = [])) as [|_]; [done|].
  destruct (Nat.eqb_spec k 0) as [|_]; [done|].
  rewrite emplace_all_Returned by done. simpl.
  set (heap0 := map _ numbers) in *.
  destruct (make_heap_spec _ DifferenceLess heap0 DifferenceLess_swo)
    as [Hperm0 Hheap0].
  assert (Hlen0 : length (make_heap DifferenceLess heap0) = length numbers).
  { rewrite Hperm0. unfold heap0. by rewrite length_map. }
  destruct (while_loop_spec k I Hperm Hstep (length numbers) 0
              (make_heap DifferenceLess heap0)) as (p & Hrun & Hp & HIp).
  - done.
  - rewrite Hperm0. unfold heap0. apply Forall_map, Forall_forall.
    intros number _. by apply size_singleton.
  - intros Hnil. rewrite Hnil in Hlen0. destruct numbers; simpl in *; done.
  - lia.
  - by apply (Hperm heap0).
  - exists p. rewrite Hrun. simpl. rewrite Hlen0. done.
Qed.

(** Every value of [heap] at the loop test is a heap of partitions of [k]
    buckets, and has every property [I] that the loop keeps. *)
Lemma loop_state_spec k (I : list Partition -> Prop) numbers heap :
  (forall h h', h ≡ₚ h' -> I h -> I h') ->
  (forall A B rest merged,
     I (A :: B :: rest) -> Partition_Merge B A = Returned merged ->
     I (merged :: rest)) ->
  k <> 0%nat ->
  I (map (fun number => singleton number k) numbers) ->
  loop_state numbers k heap ->
  is_heap DifferenceLess heap /\ Forall (fun p => size p = k) heap /\
  (length heap <= length numbers)%nat /\ I heap.
Proof.
  intros Hperm Hstep Hk HI.
  induction 1 as [heap0 Hinit|heap heap' _ IH Hlen Hbody].
  - rewrite emplace_all_Returned in Hinit by done. injection Hinit as <-.
    destruct (make_heap_spec _ DifferenceLess
      (map (fun number => singleton number k) numbers) DifferenceLess_swo)
      as [Hperm0 Hheap].
    simpl in *. split_and!; [done| | |].
    + rewrite Hperm0. apply Forall_map, Forall_forall.
      intros number _. by apply size_singleton.
    + by rewrite Hperm0, length_map.
    + eapply Hperm; [|exact HI]. done.
  - destruct IH as (Hheap & Hsize & Hle & HIh).
    destruct (loop_body_spec heap k Hheap Hlen Hsize)
      as (A & B & heap1 & rest & merged & heap'' & _ & _ & HAB & _ & _ & Hm
          & Hbody' & Hh' & Hheap').
    rewrite Hbody in Hbody'. injection Hbody' as <-.
    split_and!; [done| | |].
    + rewrite Hh'. rewrite HAB in Hsize.
      apply Forall_cons in Hsize as [HA [HB Hrest]%Forall_cons].
      constructor; [|done]. by rewrite (size_Partition_Merge _ _ _ Hm).
    + rewrite Hh'. rewrite HAB in Hle. simpl in *. lia.
    + apply (Hperm (merged :: rest)); [done|].
      apply (Hstep A B); [|done]. by apply (Hperm heap).
Qed.

Lemma concat_map_perm {A B} (f : A -> list B) (h h' : list A) :
  h ≡ₚ h' -> concat (map f h) ≡ₚ concat (map f h').
Proof.
  induction 1 as [|x h h' _ IH|x y h|h1 h2 h3 _ IH1 _ IH2]; simpl.
  - done.
  - by rewrite IH.
  - rewrite !(assoc_L (++)). f_equiv. apply Permutation_app_comm.
  - by rewrite IH1.
Qed.

Lemma concat_map_contents_singleton numbers k :
  concat (map contents (map (fun number => singleton number k) numbers)) = numbers.
Proof.
  induction numbers as [|number numbers IH]; [done|].
  cbn [map concat]. by rewrite contents_singleton, IH.
Qed.

(** Every number of the input is in exactly one bucket of the result. *)
Lemma KarmarkarKarp_run_contents numbers k :
  numbers <> [] -> k <> 0%nat ->
  exists p,
    KarmarkarKarp_run numbers k = Returned ((length numbers - 1)%nat, p)
    /\ size p = k /\ contents p ≡ₚ numbers /\ descending (subsets_ p).
Proof.
  intros Hne Hk.
  destruct (KarmarkarKarp_run_spec k
    (fun heap => concat (map contents heap) ≡ₚ numbers
                 /\ Forall (fun p => descending (subsets_ p)) heap) numbers)
    as (p & Hrun & Hsize & Hp & Hd); try done.
  - intros h h' Hperm [Hc Hd]. split.
    + by rewrite <- (concat_map_perm contents h h' Hperm).
    + by rewrite <- Hperm.
  - intros A B rest merged [Hc Hd] Hm. simpl in *. split.
    + rewrite (contents_Partition_Merge _ _ _ Hm).
      rewrite <- Hc. rewrite !(assoc_L (++)). f_equiv.
      apply Permutation_app_comm.
    + apply Forall_cons in Hd as [_ [_ Hd]%Forall_cons].
      constructor; [|done]. by apply Partition_Merge_inv in Hm as (_ & _ & ?).
  - split.
    + by rewrite concat_map_contents_singleton.
    + apply Forall_map, Forall_forall. intros number _.
      apply descending_singleton.
  - exists p. split_and!; try done.
    + simpl in Hp. by rewrite app_nil_r in Hp.
    + by inv Hd.
Qed.

End Properties.

(** ** The GNU algorithms meet the contracts *)

Section ImplementationLaws.
Context {A : Type} (comp : A -> A -> bool) (Hswo : StrictWeakOrder comp).

Lemma swo_asym a b : comp a b = true -> comp b a = false.
Proof using Hswo.
  intros Hab. destruct (comp b a) eqn:Hba; [|done].
  pose proof (swo_trans _ Hswo _ _ _ Hab Hba) as Haa.
  by rewrite (swo_irrefl _ Hswo) in Haa.
Qed.

(** *** Heaps *)

Lemma below_le top i : below top i -> (top <= i)%nat.
Proof. induction 1; lia. Qed.

Lemma below_parent top i :
  below top i -> (top < i)%nat -> below top ((i - 1) / 2).
Proof. destruct 1; [lia|done]. Qed.

Lemma below_0 i : below 0 i.
Proof.
  induction (lt_wf i) as [i _ IH].
  destruct (decide (i = 0%nat)) as [->|]; [constructor|].
  apply below_child; [lia|]. apply IH. lia.
Qed.

Lemma heap_from_mono top top' len v :
  (top <= top')%nat -> heap_from comp top len v -> heap_from comp top' len v.
Proof. intros Hle Hh i x p Hi Ht. apply Hh; [done|lia]. Qed.

Lemma is_heap_heap_from v : is_heap comp v <-> heap_from comp 0 (length v) v.
Proof.
  split.
  - intros Hh i x p Hi _. apply Hh. lia.
  - intros Hh i x p Hi Hx. apply Hh; [|lia|done].
    apply lookup_lt_Some in Hx. lia.
Qed.

Lemma heap_from_take top len v :
  heap_from comp top len v -> heap_from comp top len (take len v).
Proof.
  intros Hh i x p Hi Ht Hx Hp.
  rewrite lookup_take_lt in Hx by lia. rewrite lookup_take_lt in Hp by lia.
  by apply (Hh i).
Qed.

(** Storing [value] in the hole gives a heap when the positions away from
    the hole already meet the heap condition, the children of the hole are
    not greater than [value] and its parent is not less. *)
Lemma heap_from_fill hole top value len v :
  (len <= length v)%nat -> (hole < len)%nat ->
  (forall (i : nat) x p,
     (0 < i < len)%nat -> (top <= (i - 1) / 2)%nat ->
     i <> hole -> ((i - 1) / 2)%nat <> hole ->
     v !! i = Some x -> v !! ((i - 1) / 2)%nat = Some p -> comp p x = false) ->
  (forall (c : nat) x, (0 < c < len)%nat -> ((c - 1) / 2)%nat = hole ->
     v !! c = Some x -> comp value x = false) ->
  (forall p, (top < hole)%nat -> v !! ((hole - 1) / 2)%nat = Some p ->
     comp p value = false) ->
  heap_from comp top len (<[hole := value]> v).
Proof.
  intros Hlen Hhole Hheap Hchildren Hparent i x p Hi Ht Hx Hp.
  destruct (decide (i = hole)) as [->|Hih].
  - rewrite list_lookup_insert_eq in Hx by lia. injection Hx as <-.
    rewrite list_lookup_insert_ne in Hp by lia.
    apply Hparent; [lia|done].
  - rewrite list_lookup_insert_ne in Hx by done.
    destruct (decide (((i - 1) / 2)%nat = hole)) as [Hph|Hph].
    + rewrite Hph in Hp. rewrite list_lookup_insert_eq in Hp by lia.
      injection Hp as <-. by apply (Hchildren i).
    + rewrite list_lookup_insert_ne in Hp by done. by apply (Hheap i).
Qed.

(** [std::__push_heap], started with the hole at [hole] in a vector whose
    first [len] positions are a heap below [top] and whose hole is above
    values not greater than [value]. *)
Lemma push_heap_loop_spec fuel : forall hole top value len v,
  (len <= length v)%nat -> (hole < len)%nat -> below top hole ->
  (hole <= fuel)%nat ->
  heap_from comp top len v ->
  (forall (c : nat) x, (0 < c < len)%nat -> ((c - 1) / 2)%nat = hole ->
     v !! c = Some x -> comp value x = false) ->
  heap_from comp top len (push_heap_loop comp fuel hole top value v) /\
  push_heap_loop comp fuel hole top value v ≡ₚ <[hole := value]> v /\
  (forall i : nat, (len <= i)%nat ->
     push_heap_loop comp fuel hole top value v !! i = v !! i).
Proof using Hswo.
  induction fuel as [|fuel IH];
    intros hole top value len v Hlen Hhole Hbelow Hfuel Hheap Hchildren.
  - assert (hole = 0%nat) as -> by lia. cbn [push_heap_loop].
    assert (Hdone : heap_from comp top len (<[0%nat := value]> v)).
    { apply heap_from_fill; [done|done|by intros ??? ?? _ _; apply Hheap|done|].
      intros p Hp. lia. }
    destruct (v !! ((0 - 1) / 2)%nat); (split_and!; [done..|]);
      intros i Hi; by rewrite list_lookup_insert_ne by lia.
  - cbn [push_heap_loop].
    destruct (lookup_lt_is_Some_2 v ((hole - 1) / 2)%nat) as [p Hp]; [lia|].
    rewrite Hp.
    destruct (Nat.ltb_spec top hole) as [Hth|Hth]; cbn [andb];
      [destruct (comp p value) eqn:Hpv|].
    + (* the parent moves down into the hole *)
      pose proof (below_le _ _ (below_parent _ _ Hbelow Hth)) as Htp.
      destruct (lookup_lt_is_Some_2 v hole) as [y Hy]; [lia|].
      assert (Hpy : comp p y = false) by (apply (Hheap hole); [lia|done..]).
      destruct (IH ((hole - 1) / 2)%nat top value len (<[hole := p]> v))
        as (Hheap' & Hperm' & Hout').
      * by rewrite length_insert.
      * lia.
      * by apply below_parent.
      * lia.
      * apply heap_from_fill; [done|done|by intros ??? ?? _ _; apply Hheap| |].
        -- intros c x Hc Hch Hx.
           apply (swo_incomp _ Hswo _ y); [done|].
           apply (Hheap c); [done|lia|done|by rewrite Hch].
        -- intros p' _ Hp'. rewrite Hp in Hp'. injection Hp' as <-.
           apply (swo_irrefl _ Hswo).
      * intros c x Hc Hch Hx.
        destruct (decide (c = hole)) as [->|Hne].
        -- rewrite list_lookup_insert_eq in Hx by lia. injection Hx as <-.
           by apply swo_asym.
        -- rewrite list_lookup_insert_ne in Hx by done.
           apply (swo_incomp _ Hswo _ p); [by apply swo_asym|].
           apply (Hheap c); [done|lia|done|by rewrite Hch].
      * split_and!; [done| |].
        -- rewrite Hperm'.
           pose proof (Permutation_insert_swap (<[hole := value]> v)
                         hole ((hole - 1) / 2)%nat value p) as Hswap.
           rewrite list_insert_insert_eq in Hswap. apply Hswap.
           ++ rewrite list_lookup_insert_eq by lia. done.
           ++ rewrite list_lookup_insert_ne by lia. done.
        -- intros i Hi. rewrite Hout' by done.
           by rewrite list_lookup_insert_ne by lia.
    + split_and!; [|done|].
      * apply heap_from_fill; [done|done|by intros ??? ?? _ _; apply Hheap|done|].
        intros p' _ Hp'. rewrite Hp in Hp'. by injection Hp' as <-.
      * intros i Hi. by rewrite list_lookup_insert_ne by lia.
    + split_and!; [|done|].
      * apply heap_from_fill; [done|done|by intros ??? ?? _ _; apply Hheap|done|].
        intros p' Hp'. lia.
      * intros i Hi. by rewrite list_lookup_insert_ne by lia.
Qed.

Lemma even_mod2 n : Nat.even n = true <-> (n mod 2 = 0)%nat.
Proof.
  rewrite Nat.even_spec. split.
  - intros [m ->]. lia.
  - intros Hn. exists (n / 2)%nat. lia.
Qed.

(** The descent of [std::__adjust_heap]: the hole goes down from [hole] along
    the larger children until it has fewer than two of them. *)
Lemma adjust_heap_loop_spec top len fuel : forall hole v,
  (len <= length v)%nat -> (hole < len)%nat -> below top hole ->
  (len <= fuel + hole)%nat ->
  heap_from comp (S top) len v -> (hole <> top -> heap_from comp top len v) ->
  exists hole' v',
    adjust_heap_loop comp fuel len hole hole v = (hole', hole', v') /\
    below top hole' /\ (hole' < len)%nat /\ ~ (hole' < (len - 1) / 2)%nat /\
    length v' = length v /\
    heap_from comp (S top) len v' /\ (hole' <> top -> heap_from comp top len v') /\
    (forall value, <[hole' := value]> v' ≡ₚ <[hole := value]> v) /\
    (forall i : nat, (len <= i)%nat -> v' !! i = v !! i).
Proof using Hswo.
  induction fuel as [|fuel IH];
    intros hole v Hlen Hhole Hbelow Hfuel Hheap Hheap'; [lia|].
  cbn [adjust_heap_loop].
  destruct (Nat.ltb_spec hole ((len - 1) / 2)) as [Hlt|Hge].
  2:{ exists hole, v. split_and!; try done. lia. }
  destruct (lookup_lt_is_Some_2 v (2 * (hole + 1))%nat) as [r Hr]; [lia|].
  destruct (lookup_lt_is_Some_2 v (2 * (hole + 1) - 1)%nat) as [l Hl]; [lia|].
  rewrite Hr, Hl.
  set (pick := if comp r l then _ else _).
  assert (exists (c : nat) cv, pick = (c, cv) /\ v !! c = Some cv /\
            (0 < c < len)%nat /\ ((c - 1) / 2)%nat = hole /\
            comp cv r = false /\ comp cv l = false)
    as (c & cv & -> & Hc & Hclen & Hcp & Hcr & Hcl).
  { unfold pick. destruct (comp r l) eqn:Hrl.
    - exists (2 * (hole + 1) - 1)%nat, l. split_and!; try done; try lia.
      + by apply swo_asym.
      + apply (swo_irrefl _ Hswo).
    - exists (2 * (hole + 1))%nat, r. split_and!; try done; try lia.
      apply (swo_irrefl _ Hswo). }
  assert (Hfill : heap_from comp top len (<[hole := cv]> v)).
  { apply heap_from_fill; [done|done| | |].
    - intros i x p Hi Ht Hih Hph. 
      destruct (decide (top = ((i - 1) / 2)%nat)) as [Heq|Hne].
      + apply Hheap'; [lia|done..].
      + apply Hheap; [done|lia].
    - intros c' x Hc' Hcp' Hx.
      assert (c' = (2 * (hole + 1))%nat \/ c' = (2 * (hole + 1) - 1)%nat)
        as [->| ->] by lia.
      + rewrite Hr in Hx. by injection Hx as <-.
      + rewrite Hl in Hx. by injection Hx as <-.
    - intros p Hth Hp.
      destruct (lookup_lt_is_Some_2 v hole) as [y Hy]; [lia|].
      pose proof (below_le _ _ (below_parent _ _ Hbelow Hth)) as Htp.
      apply (swo_incomp _ Hswo _ y).
      + apply (Hheap' ltac:(lia) hole); [lia|done..].
      + apply (Hheap' ltac:(lia) c); [done|lia|done|by rewrite Hcp]. }
  destruct (IH c (<[hole := cv]> v)) as (hole' & v' & Hrun & Hb' & Hh' & Hex
    & Hlen' & Hheap1 & Hheap2 & Hperm & Hout).
  - by rewrite length_insert.
  - lia.
  - apply below_child; [lia|]. by rewrite Hcp.
  - lia.
  - apply (heap_from_mono top); [lia|done].
  - done.
  - exists hole', v'. split_and!; try done.
    + by rewrite Hlen', length_insert.
    + intros value. rewrite Hperm.
      pose proof (Permutation_insert_swap (<[hole := value]> v)
                    hole c value cv) as Hswap.
      rewrite list_insert_insert_eq in Hswap. apply Hswap.
      * rewrite list_lookup_insert_eq by lia. done.
      * rewrite list_lookup_insert_ne by lia. done.
    + intros i Hi. rewrite Hout by done.
      by rewrite list_lookup_insert_ne by lia.
Qed.

(** [std::__adjust_heap]: when the positions below [hole] meet the heap
    condition, storing [value] at [hole] and sifting makes the subtree of
    [hole] meet it too. *)
Lemma gnu_adjust_heap_spec hole len value v :
  (len <= length v)%nat -> (hole < len)%nat ->
  heap_from comp (S hole) len v ->
  heap_from comp hole len (gnu_adjust_heap comp hole len value v) /\
  gnu_adjust_heap comp hole len value v ≡ₚ <[hole := value]> v /\
  (forall i : nat, (len <= i)%nat ->
     gnu_adjust_heap comp hole len value v !! i = v !! i).
Proof using Hswo.
  intros Hlen Hhole Hheap. unfold gnu_adjust_heap.
  destruct (adjust_heap_loop_spec hole len len hole v)
    as (h1 & v1 & -> & Hb1 & Hh1 & Hex & Hlen1 & Hheap1 & Hheap1' & Hperm1 & Hout1);
    [done|done|constructor|lia|done|done|].
  destruct (Nat.even len && (h1 =? (len - 2) / 2)%nat) eqn:Hcase.
  - apply andb_true_iff in Hcase as [Heven%even_mod2 Hh%Nat.eqb_eq].
    destruct (lookup_lt_is_Some_2 v1 (2 * (h1 + 1) - 1)%nat) as [cv Hcv]; [lia|].
    rewrite Hcv. unfold gnu_push_heap_aux.
    destruct (push_heap_loop_spec (2 * (h1 + 1) - 1)%nat (2 * (h1 + 1) - 1)%nat
      hole value len (<[h1 := cv]> v1)) as (Hheap2 & Hperm2 & Hout2).
    + rewrite length_insert. lia.
    + lia.
    + apply below_child; [lia|].
      by replace ((2 * (h1 + 1) - 1 - 1) / 2)%nat with h1 by lia.
    + lia.
    + apply heap_from_fill; [lia|done| | |].
      * intros i x p Hi Ht Hih Hph.
        destruct (decide (hole = ((i - 1) / 2)%nat)) as [Heq|Hne].
        -- apply Hheap1'; [lia|done..].
        -- apply Hheap1; [done|lia].
      * intros c x Hc Hcp Hx.
        assert (c = (2 * (h1 + 1) - 1)%nat) as -> by lia.
        rewrite Hcv in Hx. injection Hx as <-. apply (swo_irrefl _ Hswo).
      * intros p Hth Hp.
        destruct (lookup_lt_is_Some_2 v1 h1) as [y Hy]; [lia|].
        pose proof (below_le _ _ (below_parent _ _ Hb1 Hth)) as Htp.
        apply (swo_incomp _ Hswo _ y).
        -- apply (Hheap1' ltac:(lia) h1); [lia|done..].
        -- apply (Hheap1' ltac:(lia) (2 * (h1 + 1) - 1)%nat);
             [lia|lia|done|].
           by replace ((2 * (h1 + 1) - 1 - 1) / 2)%nat with h1 by lia.
    + intros c x Hc Hcp Hx. lia.
    + split_and!; [done| |].
      * rewrite Hperm2, <- Hperm1.
        pose proof (Permutation_insert_swap (<[h1 := value]> v1)
                      h1 (2 * (h1 + 1) - 1)%nat value cv) as Hswap.
        rewrite list_insert_insert_eq in Hswap. apply Hswap.
        -- rewrite list_lookup_insert_eq by lia. done.
        -- rewrite list_lookup_insert_ne by lia. done.
      * intros i Hi. rewrite Hout2 by done.
        rewrite list_lookup_insert_ne by lia. by apply Hout1.
  - apply andb_false_iff in Hcase.
    assert (Hleaf : forall c : nat, (0 < c < len)%nat -> ((c - 1) / 2)%nat <> h1).
    { intros c Hc Hcp.
      destruct Hcase as [Hodd|Hne%Nat.eqb_neq].
      - assert (len mod 2 <> 0)%nat; [|lia].
        intros Hm%even_mod2. congruence.
      - destruct (decide (len mod 2 = 0)%nat); lia. }
    unfold gnu_push_heap_aux.
    destruct (push_heap_loop_spec h1 h1 hole value len v1)
      as (Hheap2 & Hperm2 & Hout2).
    + lia.
    + done.
    + done.
    + lia.
    + intros i x p Hi Ht.
      destruct (decide (hole = ((i - 1) / 2)%nat)) as [Heq|Hne].
      * destruct (decide (h1 = hole)) as [->|Hne'].
        -- by destruct (Hleaf i Hi).
        -- by apply Hheap1'.
      * apply Hheap1; [done|lia].
    + intros c x Hc Hcp. by destruct (Hleaf c Hc).
    + split_and!; [done| |].
      * by rewrite Hperm2.
      * intros i Hi. rewrite Hout2 by done. by apply Hout1.
Qed.

Lemma snoc_of_last (r : list A) (m : nat) x :
  length r = S m -> r !! m = Some x -> r = take m r ++ [x].
Proof.
  intros Hlen Hx. rewrite <- (take_drop m r) at 1. f_equal.
  rewrite (drop_S _ _ _ Hx). by rewrite drop_ge by lia.
Qed.

Lemma gnu_pop_heap_spec x v :
  is_heap comp (x :: v) ->
  exists v', gnu_pop_heap comp (x :: v) = v' ++ [x] /\ v' ≡ₚ v /\ is_heap comp v'.
Proof using Hswo.
  intros Hheap. unfold gnu_pop_heap.
  destruct (Nat.ltb_spec 1 (length (x :: v))) as [Hn|Hn].
  2:{ destruct v; [|simpl in Hn; lia].
      exists []. split_and!; [done..|apply is_heap_nil]. }
  set (n := length (x :: v)) in *.
  destruct (lookup_lt_is_Some_2 (x :: v) (n - 1)%nat) as [value Hvalue];
    [lia|].
  rewrite Hvalue. cbn [lookup list_lookup].
  destruct (gnu_adjust_heap_spec 0%nat (n - 1)%nat value
              (<[(n - 1)%nat := x]> (x :: v))) as (Hheap' & Hperm & Hout).
  - rewrite length_insert. lia.
  - lia.
  - intros i y p Hi Ht Hy Hp.
    rewrite list_lookup_insert_ne in Hy by lia.
    rewrite list_lookup_insert_ne in Hp by lia.
    apply (Hheap i); [lia|done..].
  - set (r := gnu_adjust_heap _ _ _ _ _) in *.
    assert (Hpermr : r ≡ₚ x :: v).
    { rewrite Hperm.
      apply (Permutation_insert_swap (x :: v) (n - 1)%nat 0%nat value x);
        done. }
    assert (Hlenr : length r = S (n - 1)).
    { rewrite Hpermr. fold n. lia. }
    assert (Hlast : r !! (n - 1)%nat = Some x).
    { rewrite Hout by lia. apply list_lookup_insert_eq. fold n. lia. }
    exists (take (n - 1) r). split_and!.
    + by apply snoc_of_last.
    + apply (Permutation_cons_inv (a := x)).
      rewrite <- Hpermr. rewrite (snoc_of_last r (n - 1)%nat x) at 2 by done.
      by rewrite Permutation_app_comm.
    + apply is_heap_heap_from.
      rewrite length_take, Hlenr.
      replace ((n - 1) `min` S (n - 1))%nat with (n - 1)%nat by lia.
      by apply heap_from_take.
Qed.

(** [std::__push_heap] never reads the hole. *)
Lemma push_heap_loop_stale fuel : forall hole top value y v,
  push_heap_loop comp fuel hole top value (<[hole := y]> v)
  = push_heap_loop comp fuel hole top value v.
Proof.
  induction fuel as [|fuel IH]; intros hole top value y v; cbn [push_heap_loop].
  - rewrite list_insert_insert_eq.
    by destruct (<[hole:=y]> v !! ((hole - 1) / 2)%nat), (v !! ((hole - 1) / 2)%nat).
  - rewrite !list_insert_insert_eq.
    destruct (decide (hole = 0%nat)) as [->|Hne].
    + destruct (Nat.ltb_spec top 0); [lia|]. cbn [andb].
      by destruct (<[0%nat:=y]> v !! ((0 - 1) / 2)%nat), (v !! ((0 - 1) / 2)%nat).
    + rewrite list_lookup_insert_ne by lia.
      destruct (v !! ((hole - 1) / 2)%nat); [|done].
      by rewrite list_insert_insert_eq.
Qed.

Lemma gnu_push_heap_spec v x :
  is_heap comp v ->
  gnu_push_heap comp (v ++ [x]) ≡ₚ v ++ [x] /\
  is_heap comp (gnu_push_heap comp (v ++ [x])).
Proof using Hswo.
  intros Hheap. unfold gnu_push_heap, gnu_push_heap_aux.
  rewrite length_app. cbn [length].
  replace (length v + 1 - 1)%nat with (length v) by lia.
  rewrite (lookup_app_r v [x]) by lia.
  replace (length v - length v)%nat with 0%nat by lia. cbn [lookup list_lookup].
  destruct (lookup_lt_is_Some_2 (v ++ [x]) ((length v - 1) / 2)%nat)
    as [p Hp]; [rewrite length_app; cbn [length]; lia|].
  rewrite <- (push_heap_loop_stale _ _ _ _ p).
  destruct (push_heap_loop_spec (length v) (length v) 0%nat x (S (length v))
              (<[length v := p]> (v ++ [x]))) as (Hheap' & Hperm & _).
  - rewrite length_insert, length_app. cbn [length]. lia.
  - lia.
  - apply below_0.
  - lia.
  - intros i y q Hi _ Hy Hq.
    rewrite list_lookup_insert_ne in Hq by lia.
    destruct (decide (i = length v)) as [->|Hne].
    + rewrite list_lookup_insert_eq in Hy
        by (rewrite length_app; cbn [length]; lia).
      injection Hy as <-. rewrite Hp in Hq. injection Hq as <-.
      apply (swo_irrefl _ Hswo).
    + rewrite list_lookup_insert_ne in Hy by done.
      rewrite lookup_app_l in Hy by lia. rewrite lookup_app_l in Hq by lia.
      apply (Hheap i); [lia|done..].
  - intros c y Hc Hcp Hy. lia.
  - rewrite list_insert_insert_eq in Hperm.
    assert (Hid : <[length v := x]> (v ++ [x]) = v ++ [x]).
    { apply list_insert_id. rewrite lookup_app_r by lia.
      by replace (length v - length v)%nat with 0%nat by lia. }
    rewrite Hid in Hperm. split; [done|].
    apply is_heap_heap_from.
    rewrite (Permutation_length Hperm), length_app. cbn [length].
    by replace (length v + 1)%nat with (S (length v)) by lia.
Qed.

Lemma make_heap_loop_spec len parent : forall v,
  length v = len -> (parent < len)%nat -> heap_from comp (S parent) len v ->
  heap_from comp 0 len (make_heap_loop comp len parent v) /\
  make_heap_loop comp len parent v ≡ₚ v.
Proof using Hswo.
  induction parent as [|parent IH]; intros v Hlen Hparent Hheap;
    cbn [make_heap_loop].
  - destruct (lookup_lt_is_Some_2 v 0%nat) as [value Hvalue]; [lia|].
    rewrite Hvalue.
    destruct (gnu_adjust_heap_spec 0%nat len value v) as (Hheap' & Hperm & _);
      [lia|done|done|].
    split; [done|]. by rewrite Hperm, list_insert_id.
  - destruct (lookup_lt_is_Some_2 v (S parent)) as [value Hvalue]; [lia|].
    rewrite Hvalue.
    destruct (gnu_adjust_heap_spec (S parent) len value v)
      as (Hheap' & Hperm & _); [lia|done|done|].
    rewrite list_insert_id in Hperm by done.
    destruct (IH (gnu_adjust_heap comp (S parent) len value v))
      as (Hheap'' & Hperm''); [by rewrite Hperm|lia|done|].
    split; [done|]. by rewrite Hperm''.
Qed.

Lemma gnu_make_heap_spec v :
  gnu_make_heap comp v ≡ₚ v /\ is_heap comp (gnu_make_heap comp v).
Proof using Hswo.
  unfold gnu_make_heap.
  destruct (Nat.ltb_spec (length v) 2) as [Hlen|Hlen].
  - split; [done|]. intros i x p Hi Hx. apply lookup_lt_Some in Hx. lia.
  - destruct (make_heap_loop_spec (length v) ((length v - 2) / 2)%nat v)
      as (Hheap & Hperm); [done|lia| |].
    + intros i x p Hi Ht. lia.
    + split; [done|]. apply is_heap_heap_from.
      by rewrite (Permutation_length Hperm).
Qed.

(** *** Insertion sort *)

Lemma unguarded_linear_insert_spec val rev_prefix :
  sorted_backwards comp rev_prefix ->
  sorted_backwards comp (unguarded_linear_insert comp val rev_prefix) /\
  unguarded_linear_insert comp val rev_prefix ≡ₚ val :: rev_prefix.
Proof using Hswo.
  unfold sorted_backwards.
  induction rev_prefix as [|next rest IH]; intros Hs; simpl.
  - split; [|done]. repeat constructor.
  - apply StronglySorted_cons in Hs as [Hnext Hs].
    destruct (comp val next) eqn:Hvn.
    + destruct (IH Hs) as [IHs IHp]. split.
      * constructor; [done|]. rewrite IHp. constructor; [|done].
        by apply swo_asym.
      * rewrite IHp. apply perm_swap.
    + split; [|done]. constructor.
      * by constructor.
      * constructor; [done|].
        eapply Forall_impl; [exact Hnext|]. simpl. intros b Hb.
        by apply (swo_incomp _ Hswo _ next).
Qed.

Lemma insertion_step_spec rev_prefix val :
  sorted_backwards comp rev_prefix ->
  sorted_backwards comp (insertion_step comp rev_prefix val) /\
  insertion_step comp rev_prefix val ≡ₚ val :: rev_prefix.
Proof using Hswo.
  intros Hs. unfold insertion_step.
  destruct (last rev_prefix) as [first|] eqn:Hlast.
  2:{ apply last_None in Hlast as ->. split; [|done].
      repeat constructor. }
  destruct (comp val first) eqn:Hvf.
  2:{ by apply unguarded_linear_insert_spec. }
  split; [|by rewrite Permutation_app_comm].
  apply last_Some in Hlast as [prefix' ->].
  unfold sorted_backwards in *.
  apply StronglySorted_app in Hs as (Hbefore & Hs' & _).
  assert (Hall : forall a, a ∈ prefix' ++ [first] -> comp a val = false).
  { intros a Ha. destruct (comp a val) eqn:Hav; [|done].
    pose proof (swo_trans _ Hswo _ _ _ Hav Hvf) as Haf.
    apply elem_of_app in Ha as [Ha|Ha%list_elem_of_singleton].
    - rewrite (Hbefore a first) in Haf; [done|done|]. by left.
    - subst a. by rewrite (swo_irrefl _ Hswo) in Haf. }
  apply StronglySorted_app_2.
  - intros a b Ha ->%list_elem_of_singleton. by apply Hall.
  - apply StronglySorted_app_2; [done|done|repeat constructor].
  - repeat constructor.
Qed.

Lemma fold_insertion_step_spec v : forall rev_prefix,
  sorted_backwards comp rev_prefix ->
  sorted_backwards comp (fold_left (insertion_step comp) v rev_prefix) /\
  fold_left (insertion_step comp) v rev_prefix ≡ₚ v ++ rev_prefix.
Proof using Hswo.
  induction v as [|val v IH]; intros rev_prefix Hs; simpl; [done|].
  destruct (insertion_step_spec rev_prefix val Hs) as [Hs' Hp'].
  destruct (IH _ Hs') as [Hs'' Hp'']. split; [done|].
  rewrite Hp'', Hp'. by rewrite Permutation_middle.
Qed.

Lemma sorted_backwards_rev l : sorted_backwards comp l -> is_sorted comp (rev l).
Proof.
  unfold sorted_backwards, is_sorted.
  induction 1 as [|a l Hl IH Ha]; simpl; [constructor|].
  apply StronglySorted_app_2; [|done|repeat constructor].
  intros b c Hb ->%list_elem_of_singleton.
  rewrite Forall_forall in Ha. apply Ha.
  by rewrite list_elem_of_In, in_rev, <- list_elem_of_In.
Qed.

Lemma gnu_sort_spec v :
  gnu_sort comp v ≡ₚ v /\ is_sorted comp (gnu_sort comp v).
Proof using Hswo.
  unfold gnu_sort.
  destruct (fold_insertion_step_spec v []) as [Hs Hp]; [constructor|].
  split.
  - by rewrite <- Permutation_rev, Hp, app_nil_r.
  - by apply sorted_backwards_rev.
Qed.

End ImplementationLaws.

(** The GNU implementation meets the contracts. *)
Lemma libstdcxx_Conforming : Conforming libstdcxx.
Proof.
  split.
  - intros A comp v Hswo. by apply gnu_sort_spec.
  - intros A comp v Hswo. by apply gnu_make_heap_spec.
  - intros A comp x v Hswo. by apply gnu_pop_heap_spec.
  - intros A comp v x Hswo. by apply gnu_push_heap_spec.
Qed.

(** ** Candidates whose numbers are each alone in a bucket *)

Lemma positive_is_Number n : positive_Number n -> is_Number n.
Proof. unfold positive_Number, is_Number. lia. Qed.

Lemma Subset_Merge_of_empty w :
  is_Number w -> Subset_Merge (Subset_of w) Subset_empty = Subset_of w.
Proof.
  intros Hw. unfold Subset_Merge, Subset_of. simpl.
  by rewrite Z.add_0_r, wrap_id.
Qed.

Lemma Subset_Merge_empty_of w :
  is_Number w -> Subset_Merge Subset_empty (Subset_of w) = Subset_of w.
Proof. intros Hw. unfold Subset_Merge, Subset_of. simpl. by rewrite wrap_id. Qed.

Lemma Subset_Merge_empty_empty :
  Subset_Merge Subset_empty Subset_empty = Subset_empty.
Proof. reflexivity. Qed.

Lemma Merge_loop_app a1 a2 b1 b2 :
  length a1 = length b1 ->
  Merge_loop (a1 ++ a2) (b1 ++ b2) = Merge_loop a1 b1 ++ Merge_loop a2 b2.
Proof.
  revert b1. induction a1 as [|s a1 IH]; intros [|o b1] Hlen; simpl in *;
    try done.
  rewrite IH by lia. done.
Qed.

Lemma Merge_loop_of_empty (ws : list Number) :
  Forall is_Number ws ->
  Merge_loop (map Subset_of ws) (replicate (length ws) Subset_empty)
  = map Subset_of ws.
Proof.
  induction 1 as [|w ws Hw _ IH]; simpl; [done|].
  by rewrite Subset_Merge_of_empty, IH.
Qed.

Lemma Merge_loop_empty_of (ws : list Number) :
  Forall is_Number ws ->
  Merge_loop (replicate (length ws) Subset_empty) (map Subset_of ws)
  = map Subset_of ws.
Proof.
  induction 1 as [|w ws Hw _ IH]; simpl; [done|].
  by rewrite Subset_Merge_empty_of, IH.
Qed.

Lemma Merge_loop_empty_empty n :
  Merge_loop (replicate n Subset_empty) (replicate n Subset_empty)
  = replicate n Subset_empty.
Proof.
  induction n as [|n IH]; simpl; [done|].
  by rewrite Subset_Merge_empty_empty, IH.
Qed.

Lemma rev_reverse {A} (l : list A) : rev l = reverse l.
Proof. apply rev_alt. Qed.

Lemma rev_replicate {A} n (x : A) : rev (replicate n x) = replicate n x.
Proof. rewrite rev_reverse. apply reverse_replicate. Qed.

Lemma contents_alone ws k : concat (map numbers_ (alone ws k)) = ws.
Proof.
  unfold alone. rewrite map_app, concat_app.
  assert (Hempty : forall n, concat (map numbers_ (replicate n Subset_empty)) = []).
  { intros n. induction n as [|n IH]; [done|]. simpl. exact IH. }
  rewrite Hempty, app_nil_r.
  induction ws as [|w ws IH]; [done|]. simpl. by rewrite IH.
Qed.

Lemma singleton_alone number k :
  is_Number number -> subsets_ (singleton number k) = alone [number] k.
Proof.
  intros Hn. unfold singleton, alone. simpl.
  by rewrite Subset_Merge_empty_of.
Qed.

(** The pairing of [Partition::Merge] on two such candidates that together
    have at most [k] numbers: every bucket of [other] meets an empty one. *)
Lemma Merge_loop_alone (wb wa : list Number) k :
  Forall is_Number wb -> Forall is_Number wa ->
  (length wb + length wa <= k)%nat ->
  Merge_loop (alone wb k) (rev (alone wa k))
  = map Subset_of wb
    ++ replicate (k - length wb - length wa) Subset_empty
    ++ map Subset_of (rev wa).
Proof.
  intros Hwb Hwa Hk. unfold alone.
  rewrite rev_app_distr, rev_replicate, <- map_rev.
  remember (k - length wb - length wa)%nat as m eqn:Hm.
  replace (k - length wb)%nat with (m + length (rev wa))%nat
    by (rewrite length_rev; lia).
  replace (k - length wa)%nat with (length wb + m)%nat by lia.
  rewrite !replicate_add, <- !(assoc_L (++)).
  rewrite Merge_loop_app by (by rewrite length_map, length_replicate).
  rewrite Merge_loop_app by (by rewrite !length_replicate).
  rewrite Merge_loop_of_empty, Merge_loop_empty_empty by done.
  rewrite Merge_loop_empty_of; [done|].
  apply Forall_forall. intros w Hw. rewrite Forall_forall in Hwa.
  apply Hwa. by apply list_elem_of_In, in_rev, list_elem_of_In.
Qed.

(** A descending vector of empty buckets and buckets of one positive number
    has the buckets with a number first. *)
Lemma descending_alone l :
  Forall (fun s => s = Subset_empty \/
            exists w, positive_Number w /\ s = Subset_of w) l ->
  descending l ->
  exists ws, Forall positive_Number ws /\ l = alone ws (length l).
Proof.
  intros Hshape Hd%is_sorted_descending. unfold is_sorted in Hd.
  induction Hd as [|s l Hl IH Hs]; [by exists []|].
  apply Forall_cons in Hshape as [Hshape_s Hshape_l].
  destruct (IH Hshape_l) as (ws & Hws & Heq).
  destruct Hshape_s as [->|(w & Hw & ->)].
  - (* an empty bucket first: nothing after it holds a positive number *)
    exists []. split; [done|]. unfold alone. simpl. f_equal.
    destruct ws as [|w ws].
    { unfold alone in Heq. simpl in Heq. by rewrite Nat.sub_0_r in Heq. }
    apply Forall_cons in Hws as [Hw _].
    rewrite Heq in Hs. unfold alone in Hs. simpl in Hs.
    apply Forall_cons in Hs as [Hs _].
    unfold SubsetSumGreater in Hs. simpl in Hs.
    apply Z.ltb_ge in Hs. unfold positive_Number in Hw. lia.
  - exists (w :: ws). split; [by constructor|].
    unfold alone in *. simpl. f_equal. exact Heq.
Qed.

Lemma map_replicate {A B} (f : A -> B) n x :
  map f (replicate n x) = replicate n (f x).
Proof. induction n as [|n IH]; [done|]. simpl. by rewrite IH. Qed.

Lemma concat_numbers_of (ws : list Number) :
  concat (map numbers_ (map Subset_of ws)) = ws.
Proof. induction ws as [|w ws IH]; [done|]. simpl. by rewrite IH. Qed.

Lemma concat_numbers_empty n :
  concat (map numbers_ (replicate n Subset_empty)) = [].
Proof. induction n as [|n IH]; [done|]. simpl. exact IH. Qed.

Lemma difference_size_1 p : size p = 1%nat -> difference p = 0.
Proof.
  unfold size, difference. destruct p as [[|s [|s' v]]]; simpl; try done.
  intros _. by rewrite Z.sub_diag.
Qed.

Lemma difference_all_of w k :
  k <> 0%nat -> difference (mkPartition (replicate k (Subset_of w))) = 0.
Proof.
  intros Hk. unfold difference. simpl.
  destruct k as [|k]; [done|].
  rewrite replicate_S_end at 2. rewrite last_snoc. simpl.
  by rewrite Z.sub_diag.
Qed.

Lemma difference_sums_zero p :
  Forall (fun s => sum_ s = 0) (subsets_ p) -> difference p = 0.
Proof.
  intros Hz. unfold difference.
  assert (Hhead : sum_ (default Subset_empty (head (subsets_ p))) = 0).
  { destruct (subsets_ p) as [|s v]; [done|]. simpl. by inv Hz. }
  assert (Hlast : sum_ (default Subset_empty (last (subsets_ p))) = 0).
  { destruct (last (subsets_ p)) as [s|] eqn:Hl; [|done]. simpl.
    rewrite Forall_forall in Hz. apply Hz.
    apply last_Some in Hl as [v ->]. apply elem_of_app. right. by left. }
  by rewrite Hhead, Hlast.
Qed.

Lemma Merge_loop_sums_zero it other_it :
  Forall (fun s => sum_ s = 0) it -> Forall (fun s => sum_ s = 0) other_it ->
  Forall (fun s => sum_ s = 0) (Merge_loop it other_it).
Proof.
  intros Hit. revert other_it.
  induction Hit as [|s it Hs Hit IH]; intros other_it Ho; [by destruct other_it|].
  destruct Ho as [|o other_it Ho Hother]; simpl.
  - by constructor.
  - constructor; [|by apply IH]. simpl. by rewrite Hs, Ho.
Qed.

(** ** Sums *)

Lemma total_app a b : total (a ++ b) = total a + total b.
Proof. induction a as [|x a IH]; simpl; [done|]. rewrite IH. lia. Qed.

Lemma total_perm a b : a ≡ₚ b -> total a = total b.
Proof.
  induction 1 as [|x a b _ IH|x y a|a b c _ IH1 _ IH2]; simpl; lia.
Qed.

Lemma total_nonneg a : Forall (fun n => 0 <= n) a -> 0 <= total a.
Proof. induction 1 as [|x a Hx _ IH]; simpl; lia. Qed.

Lemma total_concat (l : list (list Z)) : total (concat l) = total (map total l).
Proof.
  induction l as [|x l IH]; simpl; [done|]. by rewrite total_app, IH.
Qed.

(** A bucket weighs at most what the whole partition weighs. *)
Lemma total_bucket_le (l : list Subset) s :
  Forall (fun n => 0 <= n) (concat (map numbers_ l)) -> s ∈ l ->
  total (numbers_ s) <= total (concat (map numbers_ l)).
Proof.
  induction l as [|x l IH]; intros Hpos Hs; [by apply elem_of_nil in Hs|].
  simpl in *. apply Forall_app in Hpos as [Hx Hl].
  rewrite total_app. pose proof (total_nonneg _ Hx). pose proof (total_nonneg _ Hl).
  apply elem_of_cons in Hs as [->|Hs]; [lia|].
  specialize (IH Hl Hs). lia.
Qed.

Lemma wrap_add a b : wrap (wrap a + wrap b) = wrap (a + b).
Proof. unfold wrap. by rewrite <- Z.add_mod by lia. Qed.

Lemma wrap_is_Number z : is_Number (wrap z).
Proof. unfold is_Number, wrap. apply Z.mod_pos_bound. lia. Qed.

Lemma cached_is_Number s : cached s -> is_Number (sum_ s).
Proof. unfold cached. intros ->. apply wrap_is_Number. Qed.

Lemma cached_empty : cached Subset_empty.
Proof. reflexivity. Qed.

Lemma cached_of number : is_Number number -> cached (Subset_of number).
Proof.
  intros Hn. unfold cached. simpl. by rewrite Z.add_0_r, wrap_id.
Qed.

Lemma cached_Merge a b : cached a -> cached b -> cached (Subset_Merge a b).
Proof.
  unfold cached. intros Ha Hb. simpl. by rewrite total_app, Ha, Hb, wrap_add.
Qed.

Lemma cached_Merge_loop it other_it :
  Forall cached it -> Forall cached other_it ->
  Forall cached (Merge_loop it other_it).
Proof.
  intros Hit. revert other_it.
  induction Hit as [|s it Hs Hit IH]; intros other_it Ho; [by destruct other_it|].
  destruct Ho as [|o other_it Ho Hother]; simpl.
  - by constructor.
  - constructor; [by apply cached_Merge|by apply IH].
Qed.

Lemma cached_singleton number k : Forall cached (subsets_ (singleton number k)).
Proof.
  unfold singleton. simpl. constructor.
  - unfold cached. simpl. by rewrite Z.add_0_r.
  - apply Forall_replicate, cached_empty.
Qed.

Lemma Forall_rev {A} (P : A -> Prop) l : Forall P l -> Forall P (rev l).
Proof.
  rewrite !Forall_forall. intros Hl x Hx. apply Hl.
  by apply list_elem_of_In, in_rev, list_elem_of_In.
Qed.

(** With numbers that are not negative and add up to less than 2^64, a
    cached sum is the sum itself. *)
Lemma cached_exact p s :
  Forall (fun n => 0 <= n) (contents p) -> total (contents p) < 2 ^ 64 ->
  Forall cached (subsets_ p) -> s ∈ subsets_ p ->
  sum_ s = total (numbers_ s) /\ 0 <= sum_ s <= total (contents p).
Proof.
  intros Hpos Hlt Hc Hs. rewrite Forall_forall in Hc.
  pose proof (total_bucket_le _ _ Hpos Hs) as Hle.
  assert (H0 : 0 <= total (numbers_ s)).
  { apply total_nonneg. rewrite Forall_forall in *. intros n Hn. apply Hpos.
    unfold contents. apply list_elem_of_In, in_concat.
    exists (numbers_ s). split; [|by apply list_elem_of_In].
    apply in_map. by apply list_elem_of_In. }
  rewrite (Hc s Hs). unfold contents in *.
  rewrite wrap_id by (unfold is_Number; lia). lia.
Qed.

(** ** difference without wrap-around *)

(** In a descending vector of sums that are [uint64] values, [difference] is
    the first sum minus the last, and every sum lies between the two. *)
Lemma difference_exact v first final :
  descending v -> Forall (fun s => is_Number (sum_ s)) v ->
  head v = Some first -> last v = Some final ->
  difference (mkPartition v) = sum_ first - sum_ final /\
  forall s, s ∈ v -> sum_ final <= sum_ s <= sum_ first.
Proof.
  intros Hd Hr Hfirst Hfinal.
  assert (Hbetween : forall s, s ∈ v -> sum_ final <= sum_ s <= sum_ first).
  { intros s Hs. apply list_elem_of_lookup in Hs as [i Hi].
    rewrite head_lookup in Hfirst. rewrite last_lookup in Hfinal.
    pose proof (lookup_lt_Some _ _ _ Hi) as Hlen. split.
    - destruct (decide (i = pred (length v))) as [->|Hne].
      + rewrite Hi in Hfinal. injection Hfinal as <-. lia.
      + apply (Hd i (pred (length v))); [lia|done..].
    - destruct (decide (i = 0%nat)) as [->|Hne].
      + rewrite Hi in Hfirst. injection Hfirst as <-. lia.
      + apply (Hd 0%nat i); [lia|done..]. }
  split; [|done].
  unfold difference. simpl. rewrite Hfirst, Hfinal. simpl.
  assert (Hf : first ∈ v).
  { apply list_elem_of_lookup. exists 0%nat. by rewrite <- head_lookup. }
  assert (Hl : final ∈ v).
  { apply list_elem_of_lookup. exists (pred (length v)). by rewrite <- last_lookup. }
  rewrite Forall_forall in Hr.
  pose proof (Hr _ Hf) as Hrf. pose proof (Hr _ Hl) as Hrl.
  pose proof (Hbetween _ Hf) as Hbf.
  apply wrap_id. unfold is_Number in *. lia.
Qed.

(** Any two sums of such a vector differ by at most [difference]. *)
Lemma difference_spans p s s' :
  descending (subsets_ p) -> Forall (fun s => is_Number (sum_ s)) (subsets_ p) ->
  s ∈ subsets_ p -> s' ∈ subsets_ p -> sum_ s - sum_ s' <= difference p.
Proof.
  intros Hd Hr Hs Hs'. destruct p as [v]. simpl in *.
  destruct (head v) as [first|] eqn:Hfirst.
  2:{ apply head_None in Hfirst as ->. by apply elem_of_nil in Hs. }
  destruct (last v) as [final|] eqn:Hfinal.
  2:{ apply last_None in Hfinal as ->. by apply elem_of_nil in Hs. }
  destruct (difference_exact v first final Hd Hr Hfirst Hfinal) as [-> Hb].
  pose proof (Hb _ Hs). pose proof (Hb _ Hs'). lia.
Qed.

Lemma Merge_loop_lookup_inv it other_it (i : nat) m :
  length it = length other_it -> Merge_loop it other_it !! i = Some m ->
  exists s o, it !! i = Some s /\ other_it !! i = Some o /\ m = Subset_Merge s o.
Proof.
  revert other_it i.
  induction it as [|s it IH]; intros [|o other_it] [|i] Hlen Hm;
    simpl in *; try done.
  - injection Hm as <-. by exists s, o.
  - apply IH; [lia|done].
Qed.

Lemma difference_singleton_le number k M :
  is_Number number -> number <= M -> difference (singleton number k) <= M.
Proof.
  intros Hn HM. unfold singleton.
  set (v := _ :: _).
  destruct (last v) as [final|] eqn:Hfinal.
  2:{ by apply last_None in Hfinal. }
  destruct (difference_exact v (Subset_Merge Subset_empty (Subset_of number)) final)
    as [-> _]; [apply (descending_singleton number k)| |done|done|].
  - eapply Forall_impl; [apply (cached_singleton number k)|].
    apply cached_is_Number.
  - assert (Hin : final ∈ v).
    { apply last_Some in Hfinal as [v' ->]. apply elem_of_app. right. by left. }
    pose proof (cached_singleton number k) as Hc. rewrite Forall_forall in Hc.
    pose proof (cached_is_Number _ (Hc _ Hin)) as Hr.
    simpl. rewrite wrap_id by done. unfold is_Number in *. lia.
Qed.

(** ** Sums and differences across Partition::Merge and the driver *)

Section FurtherProperties.
Context {std : StdAlgorithms} {conforming : Conforming std}.

Lemma cached_Partition_Merge self other merged :
  Forall cached (subsets_ self) -> Forall cached (subsets_ other) ->
  Partition_Merge self other = Returned merged ->
  Forall cached (subsets_ merged).
Proof.
  intros Hs Ho (_ & Hperm & _)%Partition_Merge_inv. rewrite Hperm.
  apply cached_Merge_loop; [done|by apply Forall_rev].
Qed.

(** [Partition::Merge] does not widen the gap between the heaviest and the
    lightest bucket beyond the wider of the two gaps it started from, as long
    as no sum overflows. *)
Lemma Partition_Merge_difference_le self other merged :
  descending (subsets_ self) -> descending (subsets_ other) ->
  Forall (fun s => is_Number (sum_ s)) (subsets_ self) ->
  Forall (fun s => is_Number (sum_ s)) (subsets_ other) ->
  (forall s o, s ∈ subsets_ self -> o ∈ subsets_ other ->
     sum_ s + sum_ o < 2 ^ 64) ->
  Partition_Merge self other = Returned merged ->
  difference merged <= Z.max (difference self) (difference other).
Proof.
  intros Hds Hdo Hrs Hro Hfit Hm.
  destruct (Partition_Merge_inv _ _ _ Hm) as (Hsize & Hperm & Hdm).
  unfold size in Hsize.
  assert (Hpaired : forall m, m ∈ subsets_ merged ->
            exists (x : nat) s o,
              subsets_ self !! x = Some s /\
              rev (subsets_ other) !! x = Some o /\
              sum_ m = sum_ s + sum_ o).
  { intros m Hin. rewrite Hperm in Hin.
    apply list_elem_of_lookup in Hin as [x Hx].
    apply Merge_loop_lookup_inv in Hx as (s & o & Hs & Ho & ->);
      [|by rewrite length_rev].
    exists x, s, o. split_and!; [done..|]. simpl.
    assert (Hsin : s ∈ subsets_ self) by (apply list_elem_of_lookup; eauto).
    assert (Hoin : o ∈ subsets_ other).
    { apply list_elem_of_In, in_rev, list_elem_of_In, list_elem_of_lookup. eauto. }
    rewrite Forall_forall in Hrs, Hro.
    pose proof (Hrs _ Hsin). pose proof (Hro _ Hoin).
    pose proof (Hfit _ _ Hsin Hoin).
    apply wrap_id. unfold is_Number in *. lia. }
  destruct merged as [v]. simpl in *.
  destruct (head v) as [first|] eqn:Hfirst.
  2:{ apply head_None in Hfirst as ->.
      pose proof (wrap_nonneg (sum_ (default Subset_empty (head (subsets_ self)))
        - sum_ (default Subset_empty (last (subsets_ self))))) as H0.
      fold (difference self) in H0. change (difference (mkPartition [])) with 0.
      lia. }
  destruct (last v) as [final|] eqn:Hfinal.
  2:{ apply last_None in Hfinal as ->. done. }
  destruct (difference_exact v first final) as [-> _]; [done| |done|done|].
  { apply Forall_forall. intros m Hin.
    rewrite Hperm in Hin. apply list_elem_of_lookup in Hin as [x Hx].
    apply Merge_loop_lookup_inv in Hx as (s & o & _ & _ & ->);
      [|by rewrite length_rev].
    apply wrap_is_Number. }
  assert (Hfin : first ∈ v).
  { apply list_elem_of_lookup. exists 0%nat. by rewrite <- head_lookup. }
  assert (Hlin : final ∈ v).
  { apply list_elem_of_lookup. exists (pred (length v)). by rewrite <- last_lookup. }
  destruct (Hpaired _ Hfin) as (x & sx & ox & Hsx & Hox & ->).
  destruct (Hpaired _ Hlin) as (y & sy & oy & Hsy & Hoy & ->).
  pose proof (lookup_lt_Some _ _ _ Hox) as Hxlen.
  pose proof (lookup_lt_Some _ _ _ Hoy) as Hylen.
  rewrite length_rev in Hxlen, Hylen.
  rewrite rev_reverse, reverse_lookup in Hox, Hoy by done.
  assert (Hsxin : sx ∈ subsets_ self) by (apply list_elem_of_lookup; eauto).
  assert (Hsyin : sy ∈ subsets_ self) by (apply list_elem_of_lookup; eauto).
  assert (Hoxin : ox ∈ subsets_ other) by (apply list_elem_of_lookup; eauto).
  assert (Hoyin : oy ∈ subsets_ other) by (apply list_elem_of_lookup; eauto).
  destruct (decide (x = y)) as [->|Hxy].
  { rewrite Hsx in Hsy. injection Hsy as <-.
    rewrite Hox in Hoy. injection Hoy as <-.
    pose proof (wrap_nonneg (sum_ (default Subset_empty (head (subsets_ self)))
      - sum_ (default Subset_empty (last (subsets_ self))))) as H0.
    fold (difference self) in H0. lia. }
  destruct (decide (x < y)%nat) as [Hlt|Hge].
  - (* the later bucket met a heavier bucket of [other] *)
    pose proof (difference_spans self sx sy Hds Hrs Hsxin Hsyin).
    assert (sum_ ox <= sum_ oy);
      [|lia].
    apply (Hdo (length (subsets_ other) - S y)%nat
               (length (subsets_ other) - S x)%nat); [lia|done..].
  - pose proof (difference_spans other ox oy Hdo Hro Hoxin Hoyin).
    assert (sum_ sx <= sum_ sy); [|lia].
    apply (Hds y x); [lia|done..].
Qed.

(** Every bucket of the result caches the sum of its numbers modulo 2^64. *)
Lemma KarmarkarKarp_run_cached numbers k :
  numbers <> [] -> k <> 0%nat ->
  exists p,
    KarmarkarKarp_run numbers k = Returned ((length numbers - 1)%nat, p) /\
    size p = k /\ contents p ≡ₚ numbers /\ descending (subsets_ p) /\
    Forall cached (subsets_ p).
Proof.
  intros Hne Hk.
  destruct (KarmarkarKarp_run_spec k
    (fun heap => concat (map contents heap) ≡ₚ numbers
                 /\ Forall (fun p => descending (subsets_ p)
                                     /\ Forall cached (subsets_ p)) heap) numbers)
    as (p & Hrun & Hsize & Hp & Hd); try done.
  - intros h h' Hperm [Hc Hd]. split.
    + by rewrite <- (concat_map_perm contents h h' Hperm).
    + by rewrite <- Hperm.
  - intros A B rest merged [Hc Hd] Hm. simpl in *. split.
    + rewrite (contents_Partition_Merge _ _ _ Hm).
      rewrite <- Hc. rewrite !(assoc_L (++)). f_equiv.
      apply Permutation_app_comm.
    + apply Forall_cons in Hd as [[_ HA] [[_ HB] Hd]%Forall_cons].
      constructor; [|done]. split.
      * by apply Partition_Merge_inv in Hm as (_ & _ & ?).
      * by apply (cached_Partition_Merge B A).
  - split.
    + by rewrite concat_map_contents_singleton.
    + apply Forall_map, Forall_forall. intros number _. split.
      * apply descending_singleton.
      * apply cached_singleton.
  - exists p. apply Forall_cons in Hd as [[Hdp Hcp] _].
    split_and!; try done.
    simpl in Hp. by rewrite app_nil_r in Hp.
Qed.

(** When the numbers are [uint64] values that add up to less than 2^64, the
    difference of the result is at most every bound [M] of the numbers. *)
Lemma KarmarkarKarp_run_bounded numbers k M :
  numbers <> [] -> k <> 0%nat ->
  Forall is_Number numbers -> total numbers < 2 ^ 64 ->
  Forall (fun n => n <= M) numbers ->
  exists p,
    KarmarkarKarp_run numbers k = Returned ((length numbers - 1)%nat, p) /\
    size p = k /\ contents p ≡ₚ numbers /\ difference p <= M.
Proof.
  intros Hne Hk Hnum Htotal HM.
  assert (Hnonneg : Forall (fun n => 0 <= n) numbers).
  { eapply Forall_impl; [exact Hnum|]. unfold is_Number. simpl. lia. }
  destruct (KarmarkarKarp_run_spec k
    (fun heap => concat (map contents heap) ≡ₚ numbers
                 /\ Forall (fun p => descending (subsets_ p)
                                     /\ Forall cached (subsets_ p)
                                     /\ difference p <= M) heap) numbers)
    as (p & Hrun & Hsize & Hp & Hd); try done.
  - intros h h' Hperm [Hc Hd]. split.
    + by rewrite <- (concat_map_perm contents h h' Hperm).
    + by rewrite <- Hperm.
  - intros A B rest merged [Hc Hd] Hm. simpl in *.
    assert (Hc' : contents merged ++ concat (map contents rest) ≡ₚ numbers).
    { rewrite (contents_Partition_Merge _ _ _ Hm).
      rewrite <- Hc. rewrite !(assoc_L (++)). f_equiv.
      apply Permutation_app_comm. }
    split; [done|].
    apply Forall_cons in Hd as [(HdA & HcA & HMA) [(HdB & HcB & HMB) Hd]%Forall_cons].
    constructor; [|done]. split_and!.
    + by apply Partition_Merge_inv in Hm as (_ & _ & ?).
    + by apply (cached_Partition_Merge B A).
    + (* the sums of [A] and [B] are exact and fit together *)
      pose proof Hnonneg as Hnn. rewrite <- Hc in Hnn.
      apply Forall_app in Hnn as [HnA Hnn].
      apply Forall_app in Hnn as [HnB HnR].
      pose proof (total_perm _ _ Hc) as Ht. rewrite !total_app in Ht.
      pose proof (total_nonneg _ HnA). pose proof (total_nonneg _ HnB).
      pose proof (total_nonneg _ HnR).
      etransitivity;
        [apply (Partition_Merge_difference_le B A merged); try done|lia].
      * eapply Forall_impl; [exact HcB|]. apply cached_is_Number.
      * eapply Forall_impl; [exact HcA|]. apply cached_is_Number.
      * intros s o Hs Ho.
        destruct (cached_exact B s) as [_ ?]; [done|lia|done|done|].
        destruct (cached_exact A o) as [_ ?]; [done|lia|done|done|].
        lia.
  - split; [by rewrite concat_map_contents_singleton|].
    apply Forall_map, Forall_forall. intros number Hnumber. split_and!.
    + apply descending_singleton.
    + apply cached_singleton.
    + rewrite Forall_forall in Hnum, HM.
      apply difference_singleton_le; auto.
  - exists p. apply Forall_cons in Hd as [(_ & _ & HMp) _].
    split_and!; try done.
    simpl in Hp. by rewrite app_nil_r in Hp.
Qed.

End FurtherProperties.

(** ** The claims *)

Section Claims.
Context {std : StdAlgorithms} {conforming : Conforming std}.

Lemma KarmarkarKarp_of_run numbers k steps p :
  KarmarkarKarp_run numbers k = Returned (steps, p) ->
  KarmarkarKarp numbers k = Returned p.
Proof. unfold KarmarkarKarp. by intros ->. Qed.

(** [Partition::Merge] of two candidates with every number alone, when the
    two hold at most [k] numbers: every number is still alone. *)
Lemma Partition_Merge_alone B A merged (wb wa : list Number) k :
  Forall positive_Number wb -> Forall positive_Number wa ->
  (length wb + length wa <= k)%nat ->
  subsets_ B = alone wb k -> subsets_ A = alone wa k ->
  Partition_Merge B A = Returned merged ->
  exists ws, Forall positive_Number ws /\ ws ≡ₚ wb ++ wa /\
             subsets_ merged = alone ws k.
Proof.
  intros Hwb Hwa Hk HB HA (_ & Hperm & Hdesc)%Partition_Merge_inv.
  rewrite HB, HA in Hperm.
  rewrite Merge_loop_alone in Hperm
    by (done || eapply Forall_impl; eauto using positive_is_Number).
  destruct (descending_alone (subsets_ merged)) as (ws & Hws & Heq); [|done|].
  { rewrite Hperm. rewrite !Forall_app. split_and!.
    - apply Forall_map. eapply Forall_impl; [exact Hwb|]. simpl. eauto.
    - apply Forall_replicate. by left.
    - apply Forall_map, Forall_forall. intros w Hw. right. exists w.
      split; [|done]. rewrite Forall_forall in Hwa. apply Hwa.
      by apply list_elem_of_In, in_rev, list_elem_of_In. }
  assert (Hlen : length (subsets_ merged) = k).
  { rewrite Hperm, !length_app, !length_map, length_replicate, length_rev. lia. }
  rewrite Hlen in Heq. exists ws. split_and!; [done| |done].
  rewrite <- (contents_alone ws k), <- Heq.
  rewrite (concat_map_perm numbers_ _ _ Hperm).
  rewrite !map_app, !concat_app, !concat_numbers_of, concat_numbers_empty.
  simpl. f_equiv. by rewrite <- Permutation_rev.
Qed.

(** With at most [k] numbers, all positive, the result has every number alone
    in a bucket. *)
Lemma KarmarkarKarp_run_alone numbers k :
  numbers <> [] -> (length numbers <= k)%nat ->
  Forall positive_Number numbers ->
  exists p ws,
    KarmarkarKarp_run numbers k = Returned ((length numbers - 1)%nat, p) /\
    ws ≡ₚ numbers /\ subsets_ p = alone ws k.
Proof.
  intros Hne Hlen Hpos.
  assert (Hk : k <> 0%nat) by (destruct numbers; simpl in *; [done|lia]).
  destruct (KarmarkarKarp_run_spec k
    (fun heap =>
       Forall (fun p => exists ws, Forall positive_Number ws /\
                                   subsets_ p = alone ws k) heap
       /\ concat (map contents heap) ≡ₚ numbers) numbers)
    as (p & Hrun & _ & Hp & Hc); try done.
  - intros h h' Hperm [Hshape Hc]. split; [by rewrite <- Hperm|].
    by rewrite <- (concat_map_perm contents h h' Hperm).
  - intros A B rest merged [Hshape Hc] Hm.
    apply Forall_cons in Hshape as [(wa & Hwa & HA) Hshape].
    apply Forall_cons in Hshape as [(wb & Hwb & HB) Hshape].
    assert (Hcount : (length wb + length wa <= k)%nat).
    { apply Permutation_length in Hc. simpl in Hc.
      rewrite !length_app in Hc. unfold contents in Hc at 1 2.
      rewrite HA, HB, !contents_alone in Hc. lia. }
    destruct (Partition_Merge_alone B A merged wb wa k)
      as (ws & Hws & Hperm & Hmerged); try done.
    split.
    + constructor; [by exists ws|done].
    + simpl in *. rewrite (contents_Partition_Merge _ _ _ Hm).
      rewrite <- Hc. rewrite !(assoc_L (++)). f_equiv.
      apply Permutation_app_comm.
  - split; [|by rewrite concat_map_contents_singleton].
    apply Forall_map, Forall_forall. intros number Hnumber. simpl.
    rewrite Forall_forall in Hpos. exists [number]. split.
    + constructor; [by apply Hpos|done].
    + apply singleton_alone, positive_is_Number. by apply Hpos.
  - apply Forall_cons in Hp as [(ws & Hws & Heq) _].
    exists p, ws. split_and!; [done| |done].
    simpl in Hc. rewrite app_nil_r in Hc. unfold contents in Hc.
    by rewrite Heq, contents_alone in Hc.
Qed.

(** When every number is 0, every bucket sum of the result is 0. *)
Lemma KarmarkarKarp_run_zeros numbers k :
  numbers <> [] -> k <> 0%nat -> Forall (fun n => n = 0) numbers ->
  exists p,
    KarmarkarKarp_run numbers k = Returned ((length numbers - 1)%nat, p) /\
    Forall (fun s => sum_ s = 0) (subsets_ p).
Proof.
  intros Hne Hk Hz.
  destruct (KarmarkarKarp_run_spec k
    (Forall (fun p => Forall (fun s => sum_ s = 0) (subsets_ p))) numbers)
    as (p & Hrun & _ & Hp); try done.
  - intros h h' Hperm Hh. by rewrite <- Hperm.
  - intros A B rest merged HAB Hm.
    apply Forall_cons in HAB as [HA [HB Hrest]%Forall_cons].
    constructor; [|done].
    apply Partition_Merge_inv in Hm as (_ & Hperm & _). rewrite Hperm.
    apply Merge_loop_sums_zero; [done|].
    apply Forall_forall. intros s Hs. rewrite Forall_forall in HA.
    apply HA. by apply list_elem_of_In, in_rev, list_elem_of_In.
  - apply Forall_map, Forall_forall. intros number Hnumber. simpl.
    rewrite Forall_forall in Hz. rewrite (Hz _ Hnumber).
    constructor; [done|]. by apply Forall_replicate.
  - exists p. split; [done|]. by inv Hp.
Qed.

Lemma loop_state_heap numbers k heap :
  k <> 0%nat -> loop_state numbers k heap ->
  is_heap DifferenceLess heap /\ Forall (fun p => size p = k) heap /\
  (length heap <= length numbers)%nat.
Proof.
  intros Hk Hstate.
  destruct (loop_state_spec k (fun _ => True) numbers heap)
    as (Hheap & Hsize & Hlen & _); done.
Qed.

Lemma loop_state_descending numbers k heap :
  k <> 0%nat -> loop_state numbers k heap ->
  Forall (fun p => descending (subsets_ p)) heap.
Proof.
  intros Hk Hstate.
  destruct (loop_state_spec k (Forall (fun p => descending (subsets_ p)))
              numbers heap) as (_ & _ & _ & Hd); try done.
  - intros h h' Hperm Hh. by rewrite <- Hperm.
  - intros A B rest merged HAB Hm.
    apply Forall_cons in HAB as [_ [_ Hrest]%Forall_cons].
    constructor; [|done]. by apply Partition_Merge_inv in Hm as (_ & _ & ?).
  - apply Forall_map, Forall_forall. intros number _.
    apply descending_singleton.
Qed.

(** Every partition of every heap of the loop is sorted by descending sum and
    caches the sums of its buckets. *)
Lemma loop_state_cached numbers k heap :
  k <> 0%nat -> loop_state numbers k heap ->
  Forall (fun p => descending (subsets_ p) /\ Forall cached (subsets_ p)) heap.
Proof.
  intros Hk Hstate.
  destruct (loop_state_spec k
              (Forall (fun p => descending (subsets_ p)
                                /\ Forall cached (subsets_ p)))
              numbers heap) as (_ & _ & _ & Hd); try done.
  - intros h h' Hperm Hh. by rewrite <- Hperm.
  - intros A B rest merged HAB Hm.
    apply Forall_cons in HAB as [[_ HA] [[_ HB] Hrest]%Forall_cons].
    constructor; [|done]. split.
    + by apply Partition_Merge_inv in Hm as (_ & _ & ?).
    + by apply (cached_Partition_Merge B A).
  - apply Forall_map, Forall_forall. intros number _. split.
    + apply descending_singleton.
    + apply cached_singleton.
Qed.

(** In a partition with a bucket, sorted by descending sum and caching its
    sums, the subtraction of [difference] does not wrap around. *)
Lemma difference_no_wrap p :
  size p <> 0%nat -> descending (subsets_ p) -> Forall cached (subsets_ p) ->
  exists first final,
    head (subsets_ p) = Some first /\ last (subsets_ p) = Some final /\
    (forall s, s ∈ subsets_ p -> sum_ final <= sum_ s <= sum_ first) /\
    difference p = sum_ first - sum_ final /\ 0 <= difference p.
Proof.
  intros Hsize Hd Hc. destruct p as [v]. unfold size in Hsize. simpl in *.
  destruct (head v) as [first|] eqn:Hfirst.
  2:{ by apply head_None in Hfirst as ->. }
  destruct (last v) as [final|] eqn:Hfinal.
  2:{ by apply last_None in Hfinal as ->. }
  destruct (difference_exact v first final) as [Hdiff Hbetween]; try done.
  { eapply Forall_impl; [exact Hc|]. apply cached_is_Number. }
  exists first, final. split_and!; try done.
  rewrite Hdiff.
  assert (Hin : first ∈ v).
  { apply list_elem_of_lookup. exists 0%nat. by rewrite <- head_lookup. }
  specialize (Hbetween _ Hin). lia.
Qed.

(** C1. For a non-empty [numbers] and [k >= 1], [KarmarkarKarp] returns a
    partition whose buckets together hold exactly the numbers of the input,
    each as often as the input has it: none is lost and none duplicated. *)
Theorem KarmarkarKarp_conservation numbers k :
  numbers <> [] -> (1 <= k)%nat ->
  exists p, KarmarkarKarp numbers k = Returned p /\ contents p ≡ₚ numbers.
Proof.
  intros Hne Hk.
  destruct (KarmarkarKarp_run_contents numbers k) as (p & Hrun & _ & Hc & _);
    [done|lia|].
  exists p. split; [|done]. by eapply KarmarkarKarp_of_run.
Qed.

(** C2. [Partition::Merge] of two candidates of [k] buckets, each sorted by
    descending sum: for every [i < k] the bucket at position [i] of [self],
    which is at least as heavy as every later bucket of [self], absorbs the
    bucket at position [k - 1 - i] of [other], which is at most as heavy as
    every earlier bucket of [other]; the result holds these [k] merged buckets
    reordered by descending sum. *)
Theorem Partition_Merge_pairs self other k :
  size self = k -> size other = k ->
  descending (subsets_ self) -> descending (subsets_ other) ->
  exists merged paired,
    Partition_Merge self other = Returned merged /\
    length paired = k /\
    (forall i : nat, (i < k)%nat ->
       exists s o,
         subsets_ self !! i = Some s /\
         subsets_ other !! (k - 1 - i)%nat = Some o /\
         (forall (j : nat) s', (i <= j)%nat ->
            subsets_ self !! j = Some s' -> sum_ s' <= sum_ s) /\
         (forall (j : nat) o', (j <= k - 1 - i)%nat ->
            subsets_ other !! j = Some o' -> sum_ o <= sum_ o') /\
         paired !! i = Some (Subset_Merge s o)) /\
    subsets_ merged ≡ₚ paired /\
    descending (subsets_ merged).
Proof.
  intros Hself Hother Hds Hdo.
  pose proof (Partition_Merge_Returned self other) as Hm.
  rewrite Hself, Hother in Hm. specialize (Hm eq_refl).
  destruct (Partition_Merge_inv _ _ _ Hm) as (_ & Hperm & Hdesc).
  eexists _, (Merge_loop (subsets_ self) (rev (subsets_ other))).
  split_and!; [exact Hm|by rewrite Merge_loop_length| |exact Hperm|exact Hdesc].
  intros i Hi. unfold size in *.
  destruct (lookup_lt_is_Some_2 (subsets_ self) i) as [s Hs]; [lia|].
  destruct (lookup_lt_is_Some_2 (subsets_ other) (k - 1 - i)%nat) as [o Ho];
    [lia|].
  exists s, o. split_and!; [done|done| | |].
  - intros j s' Hij Hs'. destruct (decide (i = j)) as [->|Hne].
    + rewrite Hs in Hs'. injection Hs' as <-. lia.
    + apply (Hds i j); [lia|done..].
  - intros j o' Hij Ho'. destruct (decide (j = (k - 1 - i)%nat)) as [->|Hne].
    + rewrite Ho in Ho'. injection Ho' as <-. lia.
    + apply (Hdo j (k - 1 - i)%nat); [lia|done..].
  - apply Merge_loop_lookup; [done|].
    rewrite rev_reverse, reverse_lookup by lia.
    by replace (length (subsets_ other) - S i)%nat with (k - 1 - i)%nat by lia.
Qed.

(** C3. In every pass of the loop of a run on valid arguments, the first
    partition taken from the heap, [A], has the largest difference of all,
    the second, [B], has the largest difference of the rest, [B] absorbs [A],
    and the heap after the pass holds the merged [B] and the rest. *)
Theorem loop_body_merges_two_largest numbers k heap :
  numbers <> [] -> (1 <= k)%nat ->
  loop_state numbers k heap -> (1 < length heap)%nat ->
  exists A B heap1 rest merged heap',
    take_back (pop_heap DifferenceLess heap) = Returned (heap1, A) /\
    take_back (pop_heap DifferenceLess heap1) = Returned (rest, B) /\
    heap ≡ₚ A :: B :: rest /\
    (forall p, p ∈ heap -> difference p <= difference A) /\
    (forall p, p ∈ B :: rest -> difference p <= difference B) /\
    Partition_Merge B A = Returned merged /\
    loop_body heap = Returned heap' /\
    heap' ≡ₚ merged :: rest /\
    is_heap DifferenceLess heap'.
Proof.
  intros _ Hk Hstate Hlen.
  destruct (loop_state_heap numbers k heap) as (Hheap & Hsize & _);
    [lia|done|].
  by apply (loop_body_spec heap k).
Qed.



(** C5. For [k >= 1] a partition has [k] buckets from its construction on:
    [Partition(number, k)] builds [k] buckets, [Partition::Merge] of two
    partitions of [k] buckets gives [k] buckets, every partition in the heap
    of a run has [k] buckets, and so has the result of [KarmarkarKarp]. *)
Theorem KarmarkarKarp_k_buckets numbers k :
  numbers <> [] -> (1 <= k)%nat ->
  (forall number,
     exists p, Partition_new number k = Returned p /\ size p = k) /\
  (forall self other, size self = k -> size other = k ->
     exists merged,
       Partition_Merge self other = Returned merged /\ size merged = k) /\
  (forall heap, loop_state numbers k heap ->
     Forall (fun p => size p = k) heap) /\
  exists p, KarmarkarKarp numbers k = Returned p /\ size p = k.
Proof.
  intros Hne Hk. split_and!.
  - intros number. exists (singleton number k).
    split; [apply Partition_new_Returned|apply size_singleton]; lia.
  - intros self other Hself Hother.
    pose proof (Partition_Merge_Returned self other) as Hm.
    rewrite Hself, Hother in Hm. specialize (Hm eq_refl).
    eexists. split; [exact Hm|].
    by rewrite (size_Partition_Merge _ _ _ Hm).
  - intros heap Hstate.
    by destruct (loop_state_heap numbers k heap) as (_ & Hsize & _); [lia|..].
  - destruct (KarmarkarKarp_run_contents numbers k)
      as (p & Hrun & Hsize & _); [done|lia|].
    exists p. split; [|done]. by eapply KarmarkarKarp_of_run.
Qed.

(** C6. Bucket sums are in descending order in every partition that can be
    read: in the one [Partition(number, k)] builds, in the one every
    [Partition::Merge] leaves, in every partition of the heap of a run, and
    in the result of [KarmarkarKarp]. *)
Theorem partitions_sorted_descending numbers k :
  numbers <> [] -> (1 <= k)%nat ->
  (forall number,
     exists p, Partition_new number k = Returned p /\ descending (subsets_ p)) /\
  (forall self other merged,
     Partition_Merge self other = Returned merged ->
     descending (subsets_ merged)) /\
  (forall heap, loop_state numbers k heap ->
     Forall (fun p => descending (subsets_ p)) heap) /\
  exists p, KarmarkarKarp numbers k = Returned p /\ descending (subsets_ p).
Proof.
  intros Hne Hk. split_and!.
  - intros number. exists (singleton number k).
    split; [apply Partition_new_Returned; lia|apply descending_singleton].
  - intros self other merged Hm.
    by apply Partition_Merge_inv in Hm as (_ & _ & ?).
  - intros heap Hstate. apply (loop_state_descending numbers k); [lia|done].
  - destruct (KarmarkarKarp_run_contents numbers k)
      as (p & Hrun & _ & _ & Hd); [done|lia|].
    exists p. split; [|done]. by eapply KarmarkarKarp_of_run.
Qed.

(** C7. [KarmarkarKarp] fails on one of its own two assertions exactly when
    [numbers] is empty or [k = 0], before any partition is built (the
    assertion of the [Partition] constructor is not the one that fails), and
    on all other arguments it returns a partition. *)
Theorem KarmarkarKarp_InvalidInput numbers k :
  (InvalidInput (KarmarkarKarp numbers k) <-> numbers = [] \/ k = 0%nat) /\
  ((exists p, KarmarkarKarp numbers k = Returned p) <->
   numbers <> [] /\ k <> 0%nat).
Proof.
  destruct (decide (numbers = [])) as [->|Hne].
  { assert (Hfail : KarmarkarKarp [] k
                    = AssertionFailed assert_numbers_not_empty) by done.
    rewrite Hfail. unfold InvalidInput.
    split; split; [by left|by left|by intros [p Hp]|by intros [? _]]. }
  destruct (decide (k = 0%nat)) as [->|Hk].
  { assert (Hfail : KarmarkarKarp numbers 0
                    = AssertionFailed assert_k_positive).
    { unfold KarmarkarKarp, KarmarkarKarp_run.
      by destruct (decide (numbers = [])). }
    rewrite Hfail. unfold InvalidInput.
    split; split; [by right|by right|by intros [p Hp]|by intros [_ ?]]. }
  destruct (KarmarkarKarp_run_contents numbers k) as (p & Hrun & _);
    [done..|].
  rewrite (KarmarkarKarp_of_run _ _ _ _ Hrun). unfold InvalidInput.
  split; split; [by intros [?|?]|by intros [?|?]|done|by exists p].
Qed.

(** C8, amended. For every partition the code builds, those of the heap at
    every test of the loop and the result of [KarmarkarKarp], [difference] is
    the sum of the first bucket minus the sum of the last bucket with no
    wrap-around of the unsigned subtraction, the first sum being the largest
    and the last the smallest: it is never negative. It is 0 for every
    partition of one bucket, so for the result of [KarmarkarKarp] when
    [k = 1]; and it is 0 for the result when the input is [k] times the same
    number for [k] buckets. *)
Theorem difference_nonnegative_and_zero :
  (forall numbers k heap p,
     (1 <= k)%nat -> loop_state numbers k heap -> p ∈ heap ->
     exists first final,
       head (subsets_ p) = Some first /\ last (subsets_ p) = Some final /\
       (forall s, s ∈ subsets_ p -> sum_ final <= sum_ s <= sum_ first) /\
       difference p = sum_ first - sum_ final /\ 0 <= difference p) /\
  (forall numbers k,
     numbers <> [] -> (1 <= k)%nat ->
     exists p first final,
       KarmarkarKarp numbers k = Returned p /\
       head (subsets_ p) = Some first /\ last (subsets_ p) = Some final /\
       (forall s, s ∈ subsets_ p -> sum_ final <= sum_ s <= sum_ first) /\
       difference p = sum_ first - sum_ final /\ 0 <= difference p) /\
  (forall p, size p = 1%nat -> difference p = 0) /\
  (forall numbers, numbers <> [] ->
     exists p, KarmarkarKarp numbers 1 = Returned p /\ difference p = 0) /\
  (forall k w, (1 <= k)%nat -> is_Number w ->
     exists p, KarmarkarKarp (replicate k w) k = Returned p /\
               difference p = 0).
Proof.
  split_and!.
  - intros numbers k heap p Hk Hstate Hp.
    destruct (loop_state_heap numbers k heap) as (_ & Hsize & _); [lia|done|].
    pose proof (loop_state_cached numbers k heap ltac:(lia) Hstate) as Hc.
    rewrite Forall_forall in Hsize, Hc.
    destruct (Hc p Hp) as [Hdp Hcp].
    apply difference_no_wrap; [|done..]. rewrite (Hsize p Hp). lia.
  - intros numbers k Hne Hk.
    destruct (KarmarkarKarp_run_cached numbers k)
      as (p & Hrun & Hsize & _ & Hdp & Hcp); [done|lia|].
    destruct (difference_no_wrap p) as (first & final & H); [lia|done..|].
    exists p, first, final. split; [by eapply KarmarkarKarp_of_run|exact H].
  - apply difference_size_1.
  - intros numbers Hne.
    destruct (KarmarkarKarp_run_contents numbers 1)
      as (p & Hrun & Hsize & _); [done..|].
    exists p. split; [by eapply KarmarkarKarp_of_run|].
    by apply difference_size_1.
  - intros k w Hk Hw.
    assert (Hne : replicate k w <> []) by (destruct k; [lia|done]).
    destruct (decide (w = 0)) as [->|Hw0].
    + destruct (KarmarkarKarp_run_zeros (replicate k 0) k)
        as (p & Hrun & Hz); [done|lia|by apply Forall_replicate|].
      exists p. split; [by eapply KarmarkarKarp_of_run|].
      by apply difference_sums_zero.
    + destruct (KarmarkarKarp_run_alone (replicate k w) k)
        as (p & ws & Hrun & Hperm & Heq).
      * done.
      * by rewrite length_replicate.
      * apply Forall_replicate. unfold positive_Number, is_Number in *. lia.
      * exists p. split; [by eapply KarmarkarKarp_of_run|].
        symmetry in Hperm. apply replicate_Permutation in Hperm as <-.
        unfold alone in Heq.
        rewrite length_replicate, Nat.sub_diag, app_nil_r in Heq.
        rewrite map_replicate in Heq.
        destruct p as [v]. simpl in Heq. subst v.
        apply difference_all_of. lia.
Qed.

(** C9. The assertion of [Partition::Merge] holds in every run on valid
    arguments: the partitions the loop starts from all have [k] buckets, a
    merge of two partitions of [k] buckets has [k] buckets, the two
    partitions every pass takes from the heap have the same number of
    buckets, and [KarmarkarKarp] does not fail on that assertion. *)
Theorem Merge_same_size_holds numbers k :
  numbers <> [] -> (1 <= k)%nat ->
  (exists heap0,
     emplace_all numbers k [] = Returned heap0 /\
     Forall (fun p => size p = k) heap0) /\
  (forall self other merged, size self = k -> size other = k ->
     Partition_Merge self other = Returned merged -> size merged = k) /\
  (forall heap, loop_state numbers k heap -> (1 < length heap)%nat ->
     exists heap1 A rest B,
       take_back (pop_heap DifferenceLess heap) = Returned (heap1, A) /\
       take_back (pop_heap DifferenceLess heap1) = Returned (rest, B) /\
       size B = size A /\
       Partition_Merge B A <> AssertionFailed assert_Merge_same_size) /\
  KarmarkarKarp numbers k <> AssertionFailed assert_Merge_same_size.
Proof.
  intros Hne Hk. split_and!.
  - exists (map (fun number => singleton number k) numbers). split.
    + by rewrite emplace_all_Returned by lia.
    + apply Forall_map, Forall_forall. intros number _.
      apply size_singleton. lia.
  - intros self other merged Hself _ Hm.
    by rewrite (size_Partition_Merge _ _ _ Hm).
  - intros heap Hstate Hlen.
    destruct (loop_state_heap numbers k heap) as (Hheap & Hsize & _);
      [lia|done|].
    destruct (loop_body_spec heap k Hheap Hlen Hsize)
      as (A & B & heap1 & rest & merged & heap' & Hpop1 & Hpop2 & _ & _ & _
          & Hm & _).
    exists heap1, A, rest, B. split_and!; [done|done| |by rewrite Hm].
    by apply Partition_Merge_inv in Hm as (? & _).
  - destruct (KarmarkarKarp_run_contents numbers k) as (p & Hrun & _);
      [done|lia|].
    by rewrite (KarmarkarKarp_of_run _ _ _ _ Hrun).
Qed.

(** C10, amended. For at most [k] numbers, all positive, the result of
    [KarmarkarKarp] has every number of the input alone in a bucket, the
    buckets with a number first and the empty ones after them; and a merge of
    two such candidates that together hold at most [k] numbers puts every
    number of the absorbed one into an empty bucket. *)
Theorem few_positive_numbers_alone numbers k :
  numbers <> [] -> (length numbers <= k)%nat ->
  Forall positive_Number numbers ->
  (forall B A merged (wb wa : list Number),
     Forall positive_Number wb -> Forall positive_Number wa ->
     (length wb + length wa <= k)%nat ->
     subsets_ B = alone wb k -> subsets_ A = alone wa k ->
     Partition_Merge B A = Returned merged ->
     exists ws, ws ≡ₚ wb ++ wa /\ subsets_ merged = alone ws k) /\
  exists p ws,
    KarmarkarKarp numbers k = Returned p /\ ws ≡ₚ numbers /\
    subsets_ p
    = map Subset_of ws ++ replicate (k - length numbers) Subset_empty.
Proof.
  intros Hne Hlen Hpos. split.
  - intros B A merged wb wa Hwb Hwa Hcount HB HA Hm.
    destruct (Partition_Merge_alone B A merged wb wa k)
      as (ws & _ & Hperm & Heq); try done.
    by exists ws.
  - destruct (KarmarkarKarp_run_alone numbers k)
      as (p & ws & Hrun & Hperm & Heq); [done..|].
    exists p, ws. split_and!; [by eapply KarmarkarKarp_of_run|done|].
    rewrite Heq. unfold alone. by rewrite (Permutation_length Hperm).
Qed.

End Claims.

(** ** The claims on concrete runs, with the GNU algorithms *)

Lemma KarmarkarKarp_conservation_witness :
  exists p,
    KarmarkarKarp (std := libstdcxx) [4; 4; 4; 1; 2] 2 = Returned p /\
    contents p ≡ₚ [4; 4; 4; 1; 2].
Proof.
  apply (KarmarkarKarp_conservation
           (std := libstdcxx) (conforming := libstdcxx_Conforming)); [done|lia].
Defined.

Lemma descending_8_7 : descending [mkSubset [8] 8; mkSubset [7] 7].
Proof. apply is_sorted_descending. by repeat constructor. Qed.

Lemma descending_6_5 : descending [mkSubset [6] 6; mkSubset [5] 5].
Proof. apply is_sorted_descending. by repeat constructor. Qed.

Lemma Partition_Merge_pairs_witness :
  exists merged paired,
    Partition_Merge (std := libstdcxx)
      (mkPartition [mkSubset [8] 8; mkSubset [7] 7])
      (mkPartition [mkSubset [6] 6; mkSubset [5] 5]) = Returned merged /\
    length paired = 2%nat /\
    (forall i : nat, (i < 2)%nat ->
       exists s o,
         [mkSubset [8] 8; mkSubset [7] 7] !! i = Some s /\
         [mkSubset [6] 6; mkSubset [5] 5] !! (2 - 1 - i)%nat = Some o /\
         (forall (j : nat) s', (i <= j)%nat ->
            [mkSubset [8] 8; mkSubset [7] 7] !! j = Some s' ->
            sum_ s' <= sum_ s) /\
         (forall (j : nat) o', (j <= 2 - 1 - i)%nat ->
            [mkSubset [6] 6; mkSubset [5] 5] !! j = Some o' ->
            sum_ o <= sum_ o') /\
         paired !! i = Some (Subset_Merge s o)) /\
    subsets_ merged ≡ₚ paired /\
    descending (subsets_ merged).
Proof.
  apply (Partition_Merge_pairs
           (std := libstdcxx) (conforming := libstdcxx_Conforming)
           (mkPartition [mkSubset [8] 8; mkSubset [7] 7])
           (mkPartition [mkSubset [6] 6; mkSubset [5] 5]) 2);
    [reflexivity|reflexivity|exact descending_8_7|exact descending_6_5].
Defined.

Lemma loop_body_merges_two_largest_witness :
  exists A B heap1 rest merged heap',
    take_back (@pop_heap libstdcxx Partition DifferenceLess
      (@make_heap libstdcxx Partition DifferenceLess
         [singleton 1 2; singleton 2 2; singleton 4 2])) = Returned (heap1, A) /\
    take_back (@pop_heap libstdcxx Partition DifferenceLess heap1)
    = Returned (rest, B) /\
    @make_heap libstdcxx Partition DifferenceLess
      [singleton 1 2; singleton 2 2; singleton 4 2] ≡ₚ A :: B :: rest /\
    (forall p,
       p ∈ @make_heap libstdcxx Partition DifferenceLess
             [singleton 1 2; singleton 2 2; singleton 4 2] ->
       difference p <= difference A) /\
    (forall p, p ∈ B :: rest -> difference p <= difference B) /\
    Partition_Merge (std := libstdcxx) B A = Returned merged /\
    loop_body (std := libstdcxx)
      (@make_heap libstdcxx Partition DifferenceLess
         [singleton 1 2; singleton 2 2; singleton 4 2]) = Returned heap' /\
    heap' ≡ₚ merged :: rest /\
    is_heap DifferenceLess heap'.
Proof.
  apply (loop_body_merges_two_largest
           (std := libstdcxx) (conforming := libstdcxx_Conforming) [1; 2; 4] 2);
    [done|lia| |vm_compute; lia].
  apply (at_entry (std := libstdcxx) [1; 2; 4] 2
           [singleton 1 2; singleton 2 2; singleton 4 2]).
  reflexivity.
Defined.


Lemma KarmarkarKarp_k_buckets_witness :
  exists p,
    KarmarkarKarp (std := libstdcxx) [1; 2; 4; 8] 3 = Returned p /\
    size p = 3%nat.
Proof.
  apply (KarmarkarKarp_k_buckets
           (std := libstdcxx) (conforming := libstdcxx_Conforming) [1; 2; 4; 8] 3);
    [done|lia].
Defined.

Lemma partitions_sorted_descending_witness :
  exists p,
    KarmarkarKarp (std := libstdcxx) [1; 2; 4; 8] 3 = Returned p /\
    descending (subsets_ p).
Proof.
  apply (partitions_sorted_descending
           (std := libstdcxx) (conforming := libstdcxx_Conforming) [1; 2; 4; 8] 3);
    [done|lia].
Defined.

Lemma KarmarkarKarp_InvalidInput_witness :
  InvalidInput (KarmarkarKarp (std := libstdcxx) [1; 2; 4] 0) /\
  InvalidInput (KarmarkarKarp (std := libstdcxx) [] 2) /\
  exists p, KarmarkarKarp (std := libstdcxx) [5] 3 = Returned p.
Proof.
  split_and!.
  - apply (KarmarkarKarp_InvalidInput
           (std := libstdcxx) (conforming := libstdcxx_Conforming) [1; 2; 4] 0).
    by right.
  - apply (KarmarkarKarp_InvalidInput
           (std := libstdcxx) (conforming := libstdcxx_Conforming) [] 2). by left.
  - by apply (KarmarkarKarp_InvalidInput
           (std := libstdcxx) (conforming := libstdcxx_Conforming) [5] 3).
Defined.

Lemma difference_nonnegative_and_zero_witness :
  (exists first final,
     head (subsets_ (singleton 4 2)) = Some first /\
     last (subsets_ (singleton 4 2)) = Some final /\
     (forall s, s ∈ subsets_ (singleton 4 2) ->
        sum_ final <= sum_ s <= sum_ first) /\
     difference (singleton 4 2) = sum_ first - sum_ final /\
     0 <= difference (singleton 4 2)) /\
  (exists p first final,
     KarmarkarKarp (std := libstdcxx) [4; 5; 6; 7; 8] 2 = Returned p /\
     head (subsets_ p) = Some first /\ last (subsets_ p) = Some final /\
     (forall s, s ∈ subsets_ p -> sum_ final <= sum_ s <= sum_ first) /\
     difference p = sum_ first - sum_ final /\ 0 <= difference p) /\
  (exists p, KarmarkarKarp (std := libstdcxx) [1; 2; 4] 1 = Returned p /\
             difference p = 0) /\
  (exists p, KarmarkarKarp (std := libstdcxx) (replicate 4 7) 4 = Returned p /\
             difference p = 0).
Proof.
  destruct (difference_nonnegative_and_zero
              (std := libstdcxx) (conforming := libstdcxx_Conforming))
    as (Hcandidate & Hresult & _ & Hone & Hequal).
  split_and!.
  - apply (Hcandidate [1; 2; 4] 2%nat
             (@make_heap libstdcxx Partition DifferenceLess
                [singleton 1 2; singleton 2 2; singleton 4 2]));
      [lia| |vm_compute; repeat constructor].
    apply (at_entry (std := libstdcxx) [1; 2; 4] 2
             [singleton 1 2; singleton 2 2; singleton 4 2]).
    reflexivity.
  - apply Hresult; [done|lia].
  - by apply Hone.
  - apply Hequal; [lia|]. unfold is_Number. lia.
Defined.

(** C8, as stated, fails: 4, 5, 6, 7, 8 split into 4 + 5 + 6 = 7 + 8, yet the
    two buckets of the result differ by 2. *)
Lemma balanced_input_positive_difference :
  perfectly_balanced [4; 5; 6; 7; 8] 2 /\
  KarmarkarKarp (std := libstdcxx) [4; 5; 6; 7; 8] 2
  = Returned (mkPartition [mkSubset [5; 7; 4] 16; mkSubset [6; 8] 14]) /\
  difference (mkPartition [mkSubset [5; 7; 4] 16; mkSubset [6; 8] 14]) = 2.
Proof.
  split_and!.
  - exists [[4; 5; 6]; [7; 8]]. split_and!; [done|done|].
    intros a b Ha Hb.
    apply elem_of_cons in Ha as [->|Ha], Hb as [->|Hb]; try done.
    + by apply list_elem_of_singleton in Hb as ->.
    + by apply list_elem_of_singleton in Ha as ->.
    + apply list_elem_of_singleton in Ha as ->.
      by apply list_elem_of_singleton in Hb as ->.
  - vm_compute. reflexivity.
  - vm_compute. reflexivity.
Qed.

Lemma Merge_same_size_holds_witness :
  KarmarkarKarp (std := libstdcxx) [4; 4; 4; 1; 2] 2
  <> AssertionFailed assert_Merge_same_size.
Proof.
  apply (Merge_same_size_holds
           (std := libstdcxx) (conforming := libstdcxx_Conforming) [4; 4; 4; 1; 2] 2);
    [done|lia].
Defined.

Lemma positive_1_2_4 : Forall positive_Number [1; 2; 4].
Proof. repeat constructor. Qed.

Lemma few_positive_numbers_alone_witness :
  exists p ws,
    KarmarkarKarp (std := libstdcxx) [1; 2; 4] 5 = Returned p /\
    ws ≡ₚ [1; 2; 4] /\
    subsets_ p = map Subset_of ws ++ replicate (5 - 3) Subset_empty.
Proof.
  apply (few_positive_numbers_alone
           (std := libstdcxx) (conforming := libstdcxx_Conforming) [1; 2; 4] 5);
    [done|simpl; lia|exact positive_1_2_4].
Defined.

(** C10, as stated, fails: three numbers 0 for three buckets end with two of
    them in one bucket and one bucket empty. *)
Lemma zero_numbers_share_a_bucket :
  (length [0; 0; 0] <= 3)%nat /\
  KarmarkarKarp (std := libstdcxx) [0; 0; 0] 3
  = Returned (mkPartition [mkSubset [0] 0; mkSubset [] 0; mkSubset [0; 0] 0]).
Proof. split; [simpl; lia|vm_compute; reflexivity]. Qed.


(** * Further properties of the code *)

Section FurtherTheorems.
Context {std : StdAlgorithms} {conforming : Conforming std}.

(** X1. The cached sum of a bucket is the sum of its numbers modulo 2^64: in
    the partition the constructor builds, after every [Partition::Merge] of
    partitions that have it so, and in every bucket of the result of
    [KarmarkarKarp]; so every cached sum is a [uint64] value. *)
Theorem bucket_sums_cached numbers k :
  numbers <> [] -> (1 <= k)%nat ->
  (forall number p,
     Partition_new number k = Returned p -> Forall cached (subsets_ p)) /\
  (forall self other merged,
     Forall cached (subsets_ self) -> Forall cached (subsets_ other) ->
     Partition_Merge self other = Returned merged ->
     Forall cached (subsets_ merged)) /\
  exists p,
    KarmarkarKarp numbers k = Returned p /\
    Forall (fun s => sum_ s = wrap (total (numbers_ s)) /\ is_Number (sum_ s))
      (subsets_ p).
Proof.
  intros Hne Hk. split_and!.
  - intros number p. rewrite Partition_new_Returned by lia.
    intros [= <-]. apply cached_singleton.
  - apply cached_Partition_Merge.
  - destruct (KarmarkarKarp_run_cached numbers k)
      as (p & Hrun & _ & _ & _ & Hc); [done|lia|].
    exists p. split; [by eapply KarmarkarKarp_of_run|].
    eapply Forall_impl; [exact Hc|]. intros s Hs.
    split; [exact Hs|by apply cached_is_Number].
Qed.

(** X3. When the numbers are [uint64] values that add up to less than 2^64,
    no bucket sum of the result wrapped around: every cached sum is the sum
    of the bucket's numbers, and the bucket sums add up to the sum of the
    input. *)
Theorem sums_exact_and_conserved numbers k :
  numbers <> [] -> (1 <= k)%nat ->
  Forall is_Number numbers -> total numbers < 2 ^ 64 ->
  exists p,
    KarmarkarKarp numbers k = Returned p /\
    Forall (fun s => sum_ s = total (numbers_ s)) (subsets_ p) /\
    total (map sum_ (subsets_ p)) = total numbers.
Proof.
  intros Hne Hk Hnum Htotal.
  destruct (KarmarkarKarp_run_cached numbers k)
    as (p & Hrun & _ & Hperm & _ & Hc); [done|lia|].
  exists p. split; [by eapply KarmarkarKarp_of_run|].
  assert (Hexact : Forall (fun s => sum_ s = total (numbers_ s)) (subsets_ p)).
  { apply Forall_forall. intros s Hs.
    destruct (cached_exact p s) as [? _]; try done.
    - rewrite Hperm. eapply Forall_impl; [exact Hnum|].
      unfold is_Number. simpl. lia.
    - by rewrite (total_perm _ _ Hperm). }
  split; [done|].
  rewrite <- (total_perm _ _ Hperm). unfold contents.
  rewrite total_concat, map_map. f_equal.
  apply map_ext_Forall. exact Hexact.
Qed.

(** X4. The difference of the result of [KarmarkarKarp] is the sum of its
    first bucket minus the sum of its last bucket with no wrap-around, and
    these are the largest and the smallest bucket sum. *)
Theorem difference_is_largest_minus_smallest numbers k :
  numbers <> [] -> (1 <= k)%nat ->
  exists p first final,
    KarmarkarKarp numbers k = Returned p /\
    head (subsets_ p) = Some first /\ last (subsets_ p) = Some final /\
    difference p = sum_ first - sum_ final /\
    forall s, s ∈ subsets_ p -> sum_ final <= sum_ s <= sum_ first.
Proof.
  intros Hne Hk.
  destruct (KarmarkarKarp_run_cached numbers k)
    as (p & Hrun & Hsize & _ & Hd & Hc); [done|lia|].
  destruct p as [v]. unfold size in Hsize. simpl in *.
  destruct (head v) as [first|] eqn:Hfirst.
  2:{ apply head_None in Hfirst as ->. simpl in Hsize. lia. }
  destruct (last v) as [final|] eqn:Hfinal.
  2:{ apply last_None in Hfinal as ->. simpl in Hsize. lia. }
  exists (mkPartition v), first, final.
  split; [by eapply KarmarkarKarp_of_run|]. simpl.
  split; [done|]. split; [done|].
  apply difference_exact; try done.
  eapply Forall_impl; [exact Hc|]. apply cached_is_Number.
Qed.

(** X5. [Partition::Merge] of two partitions with the same number of
    buckets, sorted by descending sum, whose sums are [uint64] values and do
    not overflow when added, returns a partition whose difference is at most
    the larger of the two differences. *)
Theorem Partition_Merge_never_widens self other :
  size self = size other ->
  descending (subsets_ self) -> descending (subsets_ other) ->
  Forall (fun s => is_Number (sum_ s)) (subsets_ self) ->
  Forall (fun s => is_Number (sum_ s)) (subsets_ other) ->
  (forall s o, s ∈ subsets_ self -> o ∈ subsets_ other ->
     sum_ s + sum_ o < 2 ^ 64) ->
  exists merged,
    Partition_Merge self other = Returned merged /\
    difference merged <= Z.max (difference self) (difference other).
Proof.
  intros Hsize Hds Hdo Hrs Hro Hfit.
  pose proof (Partition_Merge_Returned self other Hsize) as Hm.
  eexists. split; [exact Hm|].
  by apply (Partition_Merge_difference_le self other).
Qed.

(** X6. When the numbers are [uint64] values that add up to less than 2^64,
    the difference of the result of [KarmarkarKarp] is at most the largest
    number of the input. *)
Theorem difference_at_most_largest_number numbers k M :
  numbers <> [] -> (1 <= k)%nat ->
  Forall is_Number numbers -> total numbers < 2 ^ 64 ->
  Forall (fun n => n <= M) numbers ->
  exists p, KarmarkarKarp numbers k = Returned p /\ difference p <= M.
Proof.
  intros Hne Hk Hnum Htotal HM.
  destruct (KarmarkarKarp_run_bounded numbers k M)
    as (p & Hrun & _ & _ & Hp); [done|lia|done..|].
  exists p. split; [by eapply KarmarkarKarp_of_run|done].
Qed.

(** X7. For a single number the loop makes no pass: the result is the
    partition the constructor built, the number alone in the first bucket
    and the other buckets empty, and with two buckets or more its difference
    is the number. *)
Theorem single_number w k :
  (1 <= k)%nat ->
  KarmarkarKarp_run [w] k
  = Returned (0%nat, mkPartition (mkSubset [w] (wrap w)
                                  :: replicate (k - 1) Subset_empty)) /\
  (is_Number w -> (2 <= k)%nat ->
   difference (mkPartition (mkSubset [w] (wrap w)
                            :: replicate (k - 1) Subset_empty)) = w).
Proof.
  intros Hk. split.
  - unfold KarmarkarKarp_run.
    destruct (decide ([w] = [])) as [|_]; [done|].
    destruct (Nat.eqb_spec k 0) as [|_]; [lia|].
    rewrite emplace_all_Returned by lia. simpl.
    destruct (make_heap_spec _ DifferenceLess [singleton w k] DifferenceLess_swo)
      as [Hperm _].
    apply Permutation_singleton_r in Hperm. rewrite Hperm. done.
  - intros Hw Hk2. unfold difference. simpl.
    destruct k as [|[|k]]; [lia|lia|].
    replace (S (S k) - 1)%nat with (S k) by lia.
    rewrite replicate_S_end, app_comm_cons, last_snoc. simpl.
    rewrite Z.sub_0_r, !wrap_id; [done..|]. by rewrite wrap_id.
Qed.

(** X8. With one bucket the result of [KarmarkarKarp] is that bucket holding
    all the numbers of the input, its sum the sum of the input modulo 2^64. *)
Theorem one_bucket_holds_everything numbers :
  numbers <> [] ->
  exists s,
    KarmarkarKarp numbers 1 = Returned (mkPartition [s]) /\
    numbers_ s ≡ₚ numbers /\ sum_ s = wrap (total numbers).
Proof.
  intros Hne.
  destruct (KarmarkarKarp_run_cached numbers 1)
    as (p & Hrun & Hsize & Hperm & _ & Hc); [done..|].
  destruct p as [[|s [|s' v]]]; unfold size in Hsize; simpl in Hsize; try done.
  exists s. split; [by eapply KarmarkarKarp_of_run|].
  unfold contents in Hperm. simpl in Hperm. rewrite app_nil_r in Hperm.
  split; [done|].
  apply Forall_cons in Hc as [Hs _]. unfold cached in Hs.
  by rewrite Hs, (total_perm _ _ Hperm).
Qed.

End FurtherTheorems.

(** X2. [Subset::Merge] is associative, and merging with an empty [Subset],
    on either side, changes nothing in a subset whose sum is a [uint64]
    value. *)
Theorem Subset_Merge_monoid :
  (forall a b c,
     Subset_Merge (Subset_Merge a b) c = Subset_Merge a (Subset_Merge b c)) /\
  (forall s, is_Number (sum_ s) ->
     Subset_Merge s Subset_empty = s /\ Subset_Merge Subset_empty s = s).
Proof.
  split.
  - intros a b c. unfold Subset_Merge. simpl. f_equal.
    + by rewrite (assoc_L (++)).
    + unfold wrap.
      rewrite Z.add_mod_idemp_l, Z.add_mod_idemp_r by lia. f_equal. lia.
  - intros [ns sm] Hs. unfold Subset_Merge. simpl in *. split.
    + by rewrite app_nil_r, Z.add_0_r, wrap_id.
    + by rewrite wrap_id.
Qed.

(** ** The printers *)

Lemma string_app_cons x (a b : string) : String x a +:+ b = String x (a +:+ b).
Proof. reflexivity. Qed.

Lemma string_app_empty_l (b : string) : EmptyString +:+ b = b.
Proof. reflexivity. Qed.

Lemma string_app_assoc (a b c : string) : (a +:+ b) +:+ c = a +:+ (b +:+ c).
Proof.
  induction a as [|x a IH]; [done|]. by rewrite !string_app_cons, IH.
Qed.

Lemma string_app_empty_r (a : string) : a +:+ EmptyString = a.
Proof. induction a as [|x a IH]; [done|]. by rewrite string_app_cons, IH. Qed.

(** Appends are grouped to the right, with the literals' characters up front. *)
Ltac string_norm :=
  repeat first
    [ rewrite string_app_assoc | rewrite string_app_cons
    | rewrite string_app_empty_l | rewrite string_app_empty_r ].

Lemma render_cons t (a : ostream) : render (t :: a) = render_token t +:+ render a.
Proof. reflexivity. Qed.

Lemma render_app (a b : ostream) : render (a ++ b) = render a +:+ render b.
Proof.
  induction a as [|t a IH]; [done|].
  cbn [app]. by rewrite !render_cons, IH, string_app_assoc.
Qed.

(** A loop that only inserts into the stream appends what its passes insert. *)
Lemma fold_left_insertions {X} (inserted : X -> ostream) (range : list X)
    (stream : ostream) :
  fold_left (fun stream x => stream ++ inserted x) range stream
  = stream ++ concat (map inserted range).
Proof.
  revert stream. induction range as [|x range IH]; intros stream; simpl.
  - by rewrite app_nil_r.
  - by rewrite IH, (assoc_L (++)).
Qed.

Lemma String_concat_cons sep (x y : string) (l : list string) :
  String.concat sep (x :: y :: l) = x +:+ sep +:+ String.concat sep (y :: l).
Proof. reflexivity. Qed.

Lemma render_after_commas (rest : list Number) (first : string) :
  first +:+ render (concat (map (fun number =>
                      [put_char ","%char; put_number number]) rest))
  = String.concat "," (first :: map pretty rest).
Proof.
  revert first. induction rest as [|number rest IH]; intros first.
  - apply string_app_empty_r.
  - cbn [map concat]. rewrite String_concat_cons, <- IH.
    rewrite render_app, !render_cons. cbn [render_token render foldr].
    by string_norm.
Qed.

(** X9. [operator<<] for a [Subset] keeps what the stream held and appends
    an opening bracket, the numbers of the subset in their order in decimal
    with one comma between neighbours (none before the first, none after
    the last), and a closing bracket; an empty subset prints as "[]". *)
Theorem Subset_print_renders stream subset :
  render (Subset_print stream subset)
  = render stream
    +:+ "[" +:+ String.concat "," (map pretty (numbers_ subset)) +:+ "]".
Proof.
  unfold Subset_print. destruct (numbers_ subset) as [|first rest].
  - rewrite !render_app. cbn [render foldr render_token map String.concat].
    by string_norm.
  - rewrite (fold_left_insertions
               (fun number => [put_char ","%char; put_number number])).
    cbn [map]. rewrite <- render_after_commas.
    rewrite !render_app. cbn [render foldr render_token].
    by string_norm.
Qed.

Lemma render_sums (sums : list Number) (rest : string) :
  render (concat (map (fun sum => [put_number sum; put_string "],["]) sums))
    +:+ "]" +:+ rest
  = foldr (fun sum rest => pretty sum +:+ "],[" +:+ rest) ("]" +:+ rest) sums.
Proof.
  induction sums as [|sum sums IH]; [done|].
  cbn [map concat foldr]. rewrite <- IH.
  rewrite render_app. cbn [render foldr render_token].
  by string_norm.
Qed.

Lemma brackets_regrouped (sums : list Number) :
  "[" +:+ foldr (fun sum rest => pretty sum +:+ "],[" +:+ rest) "]" sums
  = foldr (fun sum rest => "[" +:+ pretty sum +:+ "]," +:+ rest) "[]" sums.
Proof.
  induction sums as [|sum sums IH]; [done|].
  cbn [foldr]. rewrite <- IH. by string_norm.
Qed.

(** X10. [operator<<] for a [Partition] keeps what the stream held and
    appends the number of buckets, " partitions: ", every bucket sum in
    vector order as "[sum],", and a final "[]" that stands for no bucket;
    the numbers in the buckets are not printed. *)
Theorem Partition_print_renders stream partition :
  render (Partition_print stream partition)
  = render stream
    +:+ pretty (Z.of_nat (size partition)) +:+ " partitions: "
    +:+ foldr (fun sum rest => "[" +:+ pretty sum +:+ "]," +:+ rest) "[]"
          (map sum_ (subsets_ partition)).
Proof.
  unfold Partition_print, size.
  rewrite (fold_left_insertions
             (fun subset => [put_number (sum_ subset); put_string "],["])).
  rewrite <- brackets_regrouped.
  pose proof (render_sums (map sum_ (subsets_ partition)) "") as Hsums.
  rewrite map_map in Hsums. rewrite string_app_empty_r in Hsums.
  rewrite <- Hsums.
  rewrite !render_app. cbn [render foldr render_token].
  by string_norm.
Qed.

(** ** The test cases of main *)

Lemma fold_left_push_back {X} (x : Number) (range : list X) (test_case : list Number) :
  fold_left (fun test_case _ => test_case ++ [x]) range test_case
  = test_case ++ replicate (length range) x.
Proof.
  revert test_case.
  induction range as [|y range IH]; intros test_case; cbn [fold_left length replicate].
  - by rewrite app_nil_r.
  - rewrite IH. by rewrite <- (assoc_L (++)).
Qed.

Lemma fold_left_assign (numbers : list Number) n : forall (a : nat) test_case,
  (a + n <= length test_case)%nat ->
  length (fold_left (fun test_case i => <[i := numbers !!! (i mod 3)%nat]> test_case)
            (seq a n) test_case) = length test_case /\
  forall i : nat,
    fold_left (fun test_case i => <[i := numbers !!! (i mod 3)%nat]> test_case)
      (seq a n) test_case !! i
    = if decide (a <= i < a + n)%nat then Some (numbers !!! (i mod 3)%nat)
      else test_case !! i.
Proof.
  induction n as [|n IH]; intros a test_case Hlen; cbn [seq fold_left].
  - split; [done|]. intros i. destruct (decide _); [lia|done].
  - destruct (IH (S a) (<[a := numbers !!! (a mod 3)%nat]> test_case))
      as [Hlength Hlookup]; [rewrite length_insert; lia|].
    rewrite length_insert in Hlength. split; [done|].
    intros i. rewrite Hlookup.
    destruct (decide (S a <= i < S a + n)%nat), (decide (a <= i < a + S n)%nat);
      try done; try lia.
    destruct (decide (a = i)) as [->|Hne].
    + rewrite list_lookup_insert_eq by lia. done.
    + lia.
    + rewrite list_lookup_insert_ne by lia. done.
Qed.

(** X11. The three test cases [main] builds for a size of at least 2, with
    [size + 2] below 2^64 so that a [size_t] counts their elements. Every
    read [numbers[i % 3]] is inside [numbers]. The first test case has [size]
    elements, element [i] being [numbers[i % 3]]: 1, 2, 4, 1, 2, 4 and so on.
    Corner case 1 is [size - 2] times 4 followed by 1 and 2: [size]
    elements. Corner case 2 is [size] times 1 followed by 2 and 4:
    [size + 2] elements. *)
Theorem test_cases_for_size size :
  (2 <= size)%nat -> Z.of_nat size + 2 < 2 ^ 64 ->
  (forall i : nat, (i mod 3 < length main_numbers)%nat) /\
  length (first_case size) = size /\
  (forall i : nat, (i < size)%nat ->
     first_case size !! i = main_numbers !! (i mod 3)%nat /\
     first_case size !! i
     = Some (match (i mod 3)%nat with 0%nat => 1 | 1%nat => 2 | _ => 4 end)) /\
  corner_case_1 size = replicate (size - 2) 4 ++ [1; 2] /\
  length (corner_case_1 size) = size /\
  corner_case_2 size = replicate size 1 ++ [2; 4] /\
  length (corner_case_2 size) = (size + 2)%nat.
Proof.
  intros Hsize Hfits.
  assert (Hcorner_1 : corner_case_1 size = replicate (size - 2) 4 ++ [1; 2]).
  { unfold corner_case_1. rewrite fold_left_push_back, length_seq.
    cbn [app]. rewrite <- (assoc_L (++)). cbn [app]. f_equal. f_equal.
    unfold wrap. rewrite Z.mod_small by lia. lia. }
  assert (Hcorner_2 : corner_case_2 size = replicate size 1 ++ [2; 4]).
  { unfold corner_case_2. rewrite fold_left_push_back, length_seq.
    cbn [app]. by rewrite <- (assoc_L (++)). }
  destruct (fold_left_assign main_numbers size 0 (replicate size 0))
    as [Hlen Hlookup]; [by rewrite length_replicate|].
  split_and!.
  - intros i. change (length main_numbers) with 3%nat.
    apply Nat.mod_upper_bound. lia.
  - unfold first_case. by rewrite Hlen, length_replicate.
  - intros i Hi. unfold first_case. rewrite Hlookup.
    destruct (decide _) as [_|]; [|lia].
    assert (Hmod : (i mod 3 < 3)%nat) by (apply Nat.mod_upper_bound; lia).
    destruct (i mod 3)%nat as [|[|[|r]]]; [done..|lia].
  - exact Hcorner_1.
  - rewrite Hcorner_1, length_app, length_replicate. simpl. lia.
  - exact Hcorner_2.
  - rewrite Hcorner_2, length_app, length_replicate. simpl. lia.
Qed.

Lemma test_cases_for_size_witness :
  (forall i : nat, (i mod 3 < length main_numbers)%nat) /\
  length (first_case 8) = 8%nat /\
  (forall i : nat, (i < 8)%nat ->
     first_case 8 !! i = main_numbers !! (i mod 3)%nat /\
     first_case 8 !! i
     = Some (match (i mod 3)%nat with 0%nat => 1 | 1%nat => 2 | _ => 4 end)) /\
  corner_case_1 8 = replicate (8 - 2) 4 ++ [1; 2] /\
  length (corner_case_1 8) = 8%nat /\
  corner_case_2 8 = replicate 8 1 ++ [2; 4] /\
  length (corner_case_2 8) = (8 + 2)%nat.
Proof. apply (test_cases_for_size 8); [lia|reflexivity]. Defined.

(** ** main *)

Lemma for_each_Returned {S X} (body : S -> X -> outcome S) (range : list X) :
  (forall x, x ∈ range -> forall state, exists state', body state x = Returned state') ->
  forall state, exists state', for_each body range state = Returned state'.
Proof.
  induction range as [|x range IH]; intros Hbody state; simpl.
  - by exists state.
  - destruct (Hbody x ltac:(by left) state) as [state' ->]. simpl.
    apply IH. intros y Hy. apply Hbody. by right.
Qed.

Lemma main_test_cases_usual : forallb usual_test_case main_test_cases = true.
Proof. vm_compute. reflexivity. Qed.

Lemma total_le_4 (test_case : list Number) :
  Forall (fun n => n = 1 \/ n = 2 \/ n = 4) test_case ->
  total test_case <= 4 * Z.of_nat (length test_case).
Proof. induction 1 as [|n l Hn _ IH]; simpl length; simpl total; lia. Qed.

Lemma usual_test_case_spec test_case :
  usual_test_case test_case = true ->
  test_case <> [] /\ Forall is_Number test_case /\ total test_case < 2 ^ 64 /\
  Forall (fun n => n <= 4) test_case.
Proof.
  unfold usual_test_case. rewrite !andb_true_iff, negb_true_iff.
  intros [[Hne Hall] Hlen]. apply bool_decide_eq_false in Hne.
  apply Nat.leb_le in Hlen.
  assert (Hin : Forall (fun n => n = 1 \/ n = 2 \/ n = 4) test_case).
  { apply Forall_forall. intros n Hn.
    rewrite forallb_forall in Hall. apply list_elem_of_In in Hn.
    specialize (Hall n Hn). rewrite !orb_true_iff, !Z.eqb_eq in Hall. tauto. }
  split_and!; [done| | |].
  - eapply Forall_impl; [exact Hin|]. unfold is_Number. simpl. lia.
  - pose proof (total_le_4 _ Hin). lia.
  - eapply Forall_impl; [exact Hin|]. simpl. lia.
Qed.

Section MainProperties.
Context {std : StdAlgorithms} {conforming : Conforming std}.

(** X12. [main] returns: none of the calls of [KarmarkarKarp] it makes, one
    for every test case and every GPU count from 1 to 6, fails an assertion
    or reads an empty vector; and every call returns a partition of as many
    buckets as the GPU count, holding exactly the numbers of the test case,
    whose difference is at most 4. *)
Theorem main_returns :
  (exists cout, main = Returned cout) /\
  forall test_case gpu_count,
    test_case ∈ main_test_cases -> gpu_count ∈ gpu_counts ->
    exists p,
      KarmarkarKarp test_case gpu_count = Returned p /\
      size p = gpu_count /\ contents p ≡ₚ test_case /\ difference p <= 4.
Proof.
  assert (Hcalls : forall test_case gpu_count,
            test_case ∈ main_test_cases -> gpu_count ∈ gpu_counts ->
            exists p,
              KarmarkarKarp test_case gpu_count = Returned p /\
              size p = gpu_count /\ contents p ≡ₚ test_case /\
              difference p <= 4).
  { intros test_case gpu_count Hcase Hcount.
    pose proof main_test_cases_usual as Husual.
    rewrite forallb_forall in Husual.
    apply list_elem_of_In in Hcase.
    destruct (usual_test_case_spec _ (Husual _ Hcase))
      as (Hne & Hnum & Htotal & Hle).
    assert (Hk : gpu_count <> 0%nat).
    { unfold gpu_counts in Hcount. intros ->.
      repeat (apply elem_of_cons in Hcount as [?|Hcount]; [done|]).
      by apply elem_of_nil in Hcount. }
    destruct (KarmarkarKarp_run_bounded test_case gpu_count 4)
      as (p & Hrun & Hsize & Hperm & Hp); try done.
    exists p. split_and!; [by eapply KarmarkarKarp_of_run|done..]. }
  split; [|exact Hcalls].
  unfold main. unfold main_test_cases in Hcalls.
  destruct main_build as [cout test_cases]. cbn [snd] in Hcalls.
  apply for_each_Returned. intros gpu_count Hcount state.
  unfold run_gpu_count.
  apply for_each_Returned. intros test_case Hcase state'.
  unfold run_test_case.
  destruct (Hcalls test_case gpu_count Hcase Hcount) as (p & -> & _).
  eexists. reflexivity.
Qed.

End MainProperties.

(** ** The further properties on concrete runs, with the GNU algorithms *)

Lemma is_Number_4_to_8 : Forall is_Number [4; 5; 6; 7; 8].
Proof. repeat constructor; unfold is_Number; lia. Qed.

Lemma bucket_sums_cached_witness :
  exists p,
    KarmarkarKarp (std := libstdcxx) [4; 4; 4; 1; 2] 2 = Returned p /\
    Forall (fun s => sum_ s = wrap (total (numbers_ s)) /\ is_Number (sum_ s))
      (subsets_ p).
Proof.
  apply (bucket_sums_cached
           (std := libstdcxx) (conforming := libstdcxx_Conforming)
           [4; 4; 4; 1; 2] 2); [done|lia].
Defined.

Lemma sums_exact_and_conserved_witness :
  exists p,
    KarmarkarKarp (std := libstdcxx) [4; 5; 6; 7; 8] 2 = Returned p /\
    Forall (fun s => sum_ s = total (numbers_ s)) (subsets_ p) /\
    total (map sum_ (subsets_ p)) = total [4; 5; 6; 7; 8].
Proof.
  apply (sums_exact_and_conserved
           (std := libstdcxx) (conforming := libstdcxx_Conforming)
           [4; 5; 6; 7; 8] 2); [done|lia|exact is_Number_4_to_8|reflexivity].
Defined.

Lemma difference_is_largest_minus_smallest_witness :
  exists p first final,
    KarmarkarKarp (std := libstdcxx) [4; 5; 6; 7; 8] 2 = Returned p /\
    head (subsets_ p) = Some first /\ last (subsets_ p) = Some final /\
    difference p = sum_ first - sum_ final /\
    forall s, s ∈ subsets_ p -> sum_ final <= sum_ s <= sum_ first.
Proof.
  apply (difference_is_largest_minus_smallest
           (std := libstdcxx) (conforming := libstdcxx_Conforming)
           [4; 5; 6; 7; 8] 2); [done|lia].
Defined.

Lemma sums_8_7_6_5_fit s o :
  s ∈ [mkSubset [8] 8; mkSubset [7] 7] -> o ∈ [mkSubset [6] 6; mkSubset [5] 5] ->
  sum_ s + sum_ o < 2 ^ 64.
Proof.
  intros Hs Ho.
  apply elem_of_cons in Hs as [->|Hs]; [|apply list_elem_of_singleton in Hs as ->];
    (apply elem_of_cons in Ho as [->|Ho];
       [|apply list_elem_of_singleton in Ho as ->]); simpl; lia.
Qed.

Lemma Partition_Merge_never_widens_witness :
  exists merged,
    Partition_Merge (std := libstdcxx)
      (mkPartition [mkSubset [8] 8; mkSubset [7] 7])
      (mkPartition [mkSubset [6] 6; mkSubset [5] 5]) = Returned merged /\
    difference merged
    <= Z.max (difference (mkPartition [mkSubset [8] 8; mkSubset [7] 7]))
             (difference (mkPartition [mkSubset [6] 6; mkSubset [5] 5])).
Proof.
  apply (Partition_Merge_never_widens
           (std := libstdcxx) (conforming := libstdcxx_Conforming)
           (mkPartition [mkSubset [8] 8; mkSubset [7] 7])
           (mkPartition [mkSubset [6] 6; mkSubset [5] 5]));
    [reflexivity|exact descending_8_7|exact descending_6_5
    |repeat constructor; unfold is_Number; simpl; lia
    |repeat constructor; unfold is_Number; simpl; lia
    |exact sums_8_7_6_5_fit].
Defined.

Lemma difference_at_most_largest_number_witness :
  exists p,
    KarmarkarKarp (std := libstdcxx) [4; 5; 6; 7; 8] 2 = Returned p /\
    difference p <= 8.
Proof.
  apply (difference_at_most_largest_number
           (std := libstdcxx) (conforming := libstdcxx_Conforming)
           [4; 5; 6; 7; 8] 2 8);
    [done|lia|exact is_Number_4_to_8|reflexivity|repeat constructor; lia].
Defined.

Lemma single_number_witness :
  KarmarkarKarp_run (std := libstdcxx) [5] 3
  = Returned (0%nat, mkPartition (mkSubset [5] (wrap 5)
                                  :: replicate (3 - 1) Subset_empty)) /\
  difference (mkPartition (mkSubset [5] (wrap 5)
                           :: replicate (3 - 1) Subset_empty)) = 5.
Proof.
  destruct (single_number
              (std := libstdcxx) (conforming := libstdcxx_Conforming) 5 3)
    as [Hrun Hdifference]; [lia|].
  split; [exact Hrun|].
  apply Hdifference; [unfold is_Number|]; lia.
Defined.

Lemma one_bucket_holds_everything_witness :
  exists s,
    KarmarkarKarp (std := libstdcxx) [1; 2; 4] 1 = Returned (mkPartition [s]) /\
    numbers_ s ≡ₚ [1; 2; 4] /\ sum_ s = wrap (total [1; 2; 4]).
Proof.
  apply (one_bucket_holds_everything
           (std := libstdcxx) (conforming := libstdcxx_Conforming) [1; 2; 4]).
  done.
Defined.

Lemma main_returns_witness :
  (exists cout, main (std := libstdcxx) = Returned cout) /\
  forall test_case gpu_count,
    test_case ∈ main_test_cases -> gpu_count ∈ gpu_counts ->
    exists p,
      KarmarkarKarp (std := libstdcxx) test_case gpu_count = Returned p /\
      size p = gpu_count /\ contents p ≡ₚ test_case /\ difference p <= 4.
Proof.
  exact (main_returns (std := libstdcxx) (conforming := libstdcxx_Conforming)).
Defined.
